(** * docker-volume-sync: the synchronisation engine

    A shallow embedding of [internal/syncer] (s3.go, local.go, syncer.go)
    and of the concurrency setting of [internal/config], with the
    properties of the engine stated and proved over it.

    - Snapshots ([map[string]ObjectInfo]) are [gmap string ObjectInfo].
    - [int64] sizes and [time.Time] instants are [Z]; [Time.After] is [<].
    - The object store and the file system are inputs: the pages a
      paginated listing returns and the calls [filepath.WalkDir] makes.
    - [executeSync] is a transition system over the producer, the worker
      goroutines, the two channels and the cancellable context. *)

From Stdlib Require Import ZArith String Ascii List.
From stdpp Require Import base tactics option list relations gmap strings.

Open Scope Z_scope.
Open Scope string_scope.
Open Scope list_scope.

(** ** Go [strings] *)

(** [stripPrefix p s] is [Some r] exactly when [s = p ++ r]. *)
Fixpoint stripPrefix (p s : string) : option string :=
  match p, s with
  | EmptyString, _ => Some s
  | String a p', String b s' =>
      if Ascii.eqb a b then stripPrefix p' s' else None
  | String _ _, EmptyString => None
  end.

(** [strings.HasPrefix(s, prefix)] *)
Definition HasPrefix (s prefix : string) : bool :=
  match stripPrefix prefix s with Some _ => true | None => false end.

(** [strings.TrimPrefix(s, prefix)]: [s] without the leading [prefix], or
    [s] itself when it does not start with [prefix]. *)
Definition TrimPrefix (s prefix : string) : string :=
  match stripPrefix prefix s with Some r => r | None => s end.

(** [strings.SplitN(s, "/", 2)]: split at the first ["/"], if any. *)
Fixpoint SplitN2 (s : string) : string * option string :=
  match s with
  | EmptyString => (EmptyString, None)
  | String c s' =>
      if Ascii.eqb c "/"%char then (EmptyString, Some s')
      else let '(a, b) := SplitN2 s' in (String c a, b)
  end.

(** ** Errors *)

(** Go [error] values, as far as the engine tells them apart:
    the two context errors, opaque errors of the operating system, the SDK
    or an executor, [fmt.Errorf("msg: %w", err)] wrappers, and the
    unsupported-mode error of [Sync]. *)
Inductive error : Type :=
| Canceled
| DeadlineExceeded
| ErrIO (msg : string)
| Errorf (msg : string) (err : error)
| ErrUnsupported (src dst : string).

#[global] Instance error_eq_dec : EqDecision error.
Proof. solve_decision. Defined.

(** ** s3.go *)

Record ObjectInfo : Type := {
  Key : string;
  Size : Z;
  ModTime : Z
}.

#[global] Instance ObjectInfo_eq_dec : EqDecision ObjectInfo.
Proof. solve_decision. Defined.

(** [types.Object] of the SDK: every field is a pointer and may be nil. *)
Record Object : Type := {
  objKey : option string;
  objSize : option Z;
  objLastModified : option Z
}.

(** [aws.ToString], [aws.ToInt64], [aws.ToTime]: the zero value for nil.
    The zero [time.Time] is January 1, year 1, in nanoseconds before the
    epoch the instants are counted from. *)
Definition zeroTime : Z := -62135596800 * 1000000000.
Definition ToString (p : option string) : string := default EmptyString p.
Definition ToInt64 (p : option Z) : Z := default 0 p.
Definition ToTime (p : option Z) : Z := default zeroTime p.

(** [filter != nil && !filter(relPath)] *)
Definition rejected (filter : option (string -> bool)) (relPath : string) : bool :=
  match filter with
  | Some f => negb (f relPath)
  | None => false
  end.

(** The relative path [ListS3Objects] computes for a key; [None] is the
    [continue] taken when the key does not start with the prefix. *)
Definition relPathOf (prefix key : string) : option string :=
  if negb (String.eqb prefix "") then
    if negb (HasPrefix key prefix) then None
    else Some (TrimPrefix (TrimPrefix key prefix) "/")
  else Some key.

(** One iteration of [for _, obj := range page.Contents]. *)
Definition listObject (prefix : string) (filter : option (string -> bool))
    (objs : gmap string ObjectInfo) (obj : Object) : gmap string ObjectInfo :=
  let key := ToString (objKey obj) in
  match relPathOf prefix key with
  | None => objs
  | Some relPath =>
      if String.eqb relPath "" then objs
      else if rejected filter relPath then objs
      else <[relPath := {| Key := key;
                           Size := ToInt64 (objSize obj);
                           ModTime := ToTime (objLastModified obj) |}]> objs
  end.

(** The entry an iteration inserts for an object, if it inserts one. *)
Definition listed (prefix : string) (filter : option (string -> bool))
    (obj : Object) : option (string * ObjectInfo) :=
  match relPathOf prefix (ToString (objKey obj)) with
  | None => None
  | Some relPath =>
      if String.eqb relPath "" then None
      else if rejected filter relPath then None
      else Some (relPath, {| Key := ToString (objKey obj);
                             Size := ToInt64 (objSize obj);
                             ModTime := ToTime (objLastModified obj) |})
  end.

(** What [paginator.NextPage] returns. *)
Definition page : Type := error + list Object.

(** The loop [for paginator.HasMorePages()], over the pages the store
    returns in order. *)
Fixpoint listPages (prefix : string) (filter : option (string -> bool))
    (pages : list page) (objs : gmap string ObjectInfo)
    : error + gmap string ObjectInfo :=
  match pages with
  | [] => inr objs
  | inl err :: _ => inl (Errorf "failed to list objects" err)
  | inr contents :: rest =>
      listPages prefix filter rest (fold_left (listObject prefix filter) contents objs)
  end.

(** The client capability [ListS3Objects] uses: the pages of a listing of
    [bucket] under [prefix]. *)
Record S3Client : Type := {
  ListObjectsV2 : string -> string -> list page
}.

Definition ListS3Objects (client : S3Client) (bucket prefix : string)
    (filter : option (string -> bool)) : error + gmap string ObjectInfo :=
  listPages prefix filter (ListObjectsV2 client bucket prefix) ∅.

(** ** local.go *)

Record FileInfo : Type := {
  fiSize : Z;
  fiModTime : Z
}.

(** [fs.DirEntry]: [IsDir()] and the outcome of [Info()]. *)
Record DirEntry : Type := {
  IsDir : bool;
  Info : error + FileInfo
}.

(** One call [fn(path, d, err)] made by [filepath.WalkDir].  When [err] is
    set the callback returns before it looks at [d]. *)
Record walkCall : Type := {
  wpath : string;
  wd : DirEntry;
  werr : option error
}.

(** The file system as [WalkLocal] sees it: the calls [WalkDir] makes for a
    root when no callback stops it, and [filepath.Rel]. *)
Record FileSystem : Type := {
  WalkDirCalls : string -> list walkCall;
  Rel : string -> string -> error + string
}.

Section Local.
Variable fs : FileSystem.

(** The callback of [WalkLocal]; [inl] is a non-nil return, which stops
    the walk. *)
Definition walkFn (root : string) (filter : option (string -> bool))
    (objects : gmap string ObjectInfo) (c : walkCall)
    : error + gmap string ObjectInfo :=
  match werr c with
  | Some err => inl err
  | None =>
      if IsDir (wd c) then inr objects
      else
        match Rel fs root (wpath c) with
        | inl err => inl (Errorf "failed to get relative path" err)
        | inr relPath =>
            if rejected filter relPath then inr objects
            else
              match Info (wd c) with
              | inl err => inl (Errorf "failed to get file info" err)
              | inr info =>
                  inr (<[relPath := {| Key := relPath;
                                       Size := fiSize info;
                                       ModTime := fiModTime info |}]> objects)
              end
        end
  end.

(** [filepath.WalkDir]: the first non-nil return of the callback ends
    the walk and is its result. *)
Fixpoint WalkDir (root : string) (filter : option (string -> bool))
    (calls : list walkCall) (objects : gmap string ObjectInfo)
    : error + gmap string ObjectInfo :=
  match calls with
  | [] => inr objects
  | c :: rest =>
      match walkFn root filter objects c with
      | inl err => inl err
      | inr objects' => WalkDir root filter rest objects'
      end
  end.

Definition WalkLocal (root : string) (filter : option (string -> bool))
    : error + gmap string ObjectInfo :=
  match WalkDir root filter (WalkDirCalls fs root) ∅ with
  | inl err => inl (Errorf "failed to walk local directory" err)
  | inr objects => inr objects
  end.
End Local.

(** A call of the walk on which the callback of [WalkLocal] fails: the
    walk reports an error for the entry, or the entry is a file whose
    relative path cannot be computed or which passes the filter and whose
    metadata cannot be read. *)
Definition unreadable (fs : FileSystem) (root : string)
    (filter : option (string -> bool)) (c : walkCall) : Prop :=
  is_Some (werr c) \/
  (IsDir (wd c) = false /\
   ((exists e, Rel fs root (wpath c) = inl e) \/
    (exists relPath e, Rel fs root (wpath c) = inr relPath /\
                       rejected filter relPath = false /\
                       Info (wd c) = inl e))).

(** ** syncer.go *)

Record Syncer : Type := {
  client : S3Client;
  deleteDestination : bool;
  concurrency : Z;
  filter_ : option (string -> bool)
}.

(** The [Option] type: a function that updates a [Syncer]. *)
Definition Option : Type := Syncer -> Syncer.

Definition WithFilter (f : string -> bool) : Option := fun s =>
  {| client := client s; deleteDestination := deleteDestination s;
     concurrency := concurrency s; filter_ := Some f |}.

Definition WithDelete (delete : bool) : Option := fun s =>
  {| client := client s; deleteDestination := delete;
     concurrency := concurrency s; filter_ := filter_ s |}.

Definition WithConcurrency (n : Z) : Option := fun s =>
  {| client := client s; deleteDestination := deleteDestination s;
     concurrency := n; filter_ := filter_ s |}.

Definition WithClient (c : S3Client) : Option := fun s =>
  {| client := c; deleteDestination := deleteDestination s;
     concurrency := concurrency s; filter_ := filter_ s |}.

(** [New]: [sdkConfig] is the outcome of [awsconfig.LoadDefaultConfig]
    followed by [s3.NewFromConfig]. *)
Definition New (sdkConfig : error + S3Client) (opts : list Option) : error + Syncer :=
  match sdkConfig with
  | inl err => inl (Errorf "failed to load default aws config" err)
  | inr c =>
      inr (fold_left (fun s opt => opt s) opts
             {| client := c; deleteDestination := false;
                concurrency := 16; filter_ := None |})
  end.

(** [cfg.Concurrency] as [config.Load] sets it: [concurrencyStr] is the
    value of SYNC_CONCURRENCY and [scanned] what [fmt.Sscanf] with ["%d"]
    makes of it. *)
Definition loadConcurrency (concurrencyStr : string) (scanned : error + Z) : Z :=
  if negb (String.eqb concurrencyStr "") then
    match scanned with
    | inr c => if (0 <? c)%Z then c else 16
    | inl _ => 16
    end
  else 16.

Definition parseS3URI (uri : string) : string * string :=
  let trimmed := TrimPrefix uri "s3://" in
  let '(bucket, rest) := SplitN2 trimmed in
  (bucket, default EmptyString rest).

(** The four closures [executeSync] is given as [copyFunc] and
    [deleteFunc], with what they capture. *)
Inductive executor : Type :=
| download (bucket prefix dst : string)
| removeLocal (dst : string)
| upload (src bucket prefix : string)
| deleteObject (bucket prefix : string).

#[global] Instance executor_eq_dec : EqDecision executor.
Proof. solve_decision. Defined.

Record job : Type := {
  path : string;
  fn : executor
}.

#[global] Instance job_eq_dec : EqDecision job.
Proof. solve_decision. Defined.

(** The call [s.executeSync(ctx, srcObjs, dstObjs, copyFunc, deleteFunc)]. *)
Record executeCall : Type := {
  srcObjs : gmap string ObjectInfo;
  dstObjs : gmap string ObjectInfo;
  copyFunc : executor;
  deleteFunc : executor
}.

(** What [Sync] does before the transfer: logging and enumeration. *)
Inductive event : Type :=
| EvLog (src dst : string)
| EvListS3 (bucket prefix : string)
| EvWalkLocal (root : string).

Section Orchestrator.
Variable fs : FileSystem.
Variable s : Syncer.

(** Up to the tail call of [executeSync]: the enumerations made, and
    either the error returned or the call made. *)
Definition syncS3ToLocal (src dst : string) : list event * (error + executeCall) :=
  let '(bucket, prefix) := parseS3URI src in
  match ListS3Objects (client s) bucket prefix (filter_ s) with
  | inl err => ([EvListS3 bucket prefix], inl err)
  | inr srcO =>
      match WalkLocal fs dst (filter_ s) with
      | inl err => ([EvListS3 bucket prefix; EvWalkLocal dst], inl err)
      | inr dstO =>
          ([EvListS3 bucket prefix; EvWalkLocal dst],
           inr {| srcObjs := srcO; dstObjs := dstO;
                  copyFunc := download bucket prefix dst;
                  deleteFunc := removeLocal dst |})
      end
  end.

Definition syncLocalToS3 (src dst : string) : list event * (error + executeCall) :=
  let '(bucket, prefix) := parseS3URI dst in
  match WalkLocal fs src (filter_ s) with
  | inl err => ([EvWalkLocal src], inl err)
  | inr srcO =>
      match ListS3Objects (client s) bucket prefix (filter_ s) with
      | inl err => ([EvWalkLocal src; EvListS3 bucket prefix], inl err)
      | inr dstO =>
          ([EvWalkLocal src; EvListS3 bucket prefix],
           inr {| srcObjs := srcO; dstObjs := dstO;
                  copyFunc := upload src bucket prefix;
                  deleteFunc := deleteObject bucket prefix |})
      end
  end.

Definition Sync (src dst : string) : list event * (error + executeCall) :=
  let srcIsS3 := HasPrefix src "s3://" in
  let dstIsS3 := HasPrefix dst "s3://" in
  let '(evs, r) :=
    if srcIsS3 && negb dstIsS3 then syncS3ToLocal src dst
    else if negb srcIsS3 && dstIsS3 then syncLocalToS3 src dst
    else ([], inl (ErrUnsupported src dst)) in
  (EvLog src dst :: evs, r).
End Orchestrator.

(** *** The decisions of [executeSync] *)

(** [shouldCopy] for one entry of [srcObjs]; [dst] is [dstObjs[path]]. *)
Definition shouldCopy (srcInfo : ObjectInfo) (dst : option ObjectInfo) : bool :=
  match dst with
  | None => true
  | Some dstInfo =>
      if negb (Size srcInfo =? Size dstInfo)%Z then true
      else (ModTime dstInfo <? ModTime srcInfo)%Z
  end.

(** [_, exists := srcObjs[path]; !exists] *)
Definition shouldDelete (src : option ObjectInfo) : bool :=
  match src with
  | None => true
  | Some _ => false
  end.

(** The jobs the copy loop submits when it runs to its end, in the order
    [order] in which [range srcObjs] yields the entries. *)
Definition copyJobs (c : executeCall) (order : list (string * ObjectInfo)) : list job :=
  omap (fun '(p, srcInfo) =>
          if shouldCopy srcInfo (dstObjs c !! p)
          then Some {| path := p; fn := copyFunc c |} else None) order.

(** The jobs the deletion loop submits when it runs to its end. *)
Definition deleteJobs (c : executeCall) (order : list (string * ObjectInfo)) : list job :=
  omap (fun '(p, _) =>
          if shouldDelete (srcObjs c !! p)
          then Some {| path := p; fn := deleteFunc c |} else None) order.

(** The plan of a call: the set of paths to copy and the set of paths to
    delete. *)
Definition copySet (c : executeCall) : list string :=
  path <$> copyJobs c (map_to_list (srcObjs c)).

Definition deleteSet (s : Syncer) (c : executeCall) : list string :=
  if deleteDestination s then path <$> deleteJobs c (map_to_list (dstObjs c))
  else [].

(** *** [executeSync] as a transition system *)

(** A worker goroutine. *)
Inductive worker : Type :=
| WSelect              (* at the [select] of its loop *)
| WExec (j : job)      (* inside [j.exec(ctx)] *)
| WFailed              (* its error offered to [errChan], before [cancel()] *)
| WExited.             (* returned, [wg.Done()] has run *)

(** The goroutine that runs [executeSync] itself: where it is, with the
    entries a [range] has still to yield. *)
Inductive producer : Type :=
| PStart                                                      (* workers started *)
| PCopyRange (rest : list (string * ObjectInfo))              (* head of the copy loop *)
| PCopySubmit (j : job) (rest : list (string * ObjectInfo))   (* in [submit], copy loop *)
| PDeleteCheck                                                (* [if s.deleteDestination] *)
| PDeleteRange (rest : list (string * ObjectInfo))            (* head of the deletion loop *)
| PDeleteSubmit (j : job) (rest : list (string * ObjectInfo)) (* in [submit], deletion loop *)
| PClose                                                      (* before [close(jobs)] *)
| PWait                                                       (* in [wg.Wait()] *)
| PReturned (r : option error).                               (* returned [r] *)

(** [callerErr] is [Err()] of the context [executeSync] is given and
    [ctxErr] that of the context it derives with [context.WithCancel];
    [jobs] and [errChan] are the contents of the two buffered channels,
    oldest first.  The last three fields are history: the jobs sent on
    [jobs], the jobs whose executor was invoked, and the errors executors
    returned, each in order of occurrence.  A failure occurs when the
    worker offers the error to [errChan]: the order of [failures] is the
    order of these offers. *)
Record state : Type := {
  callerErr : option error;
  ctxErr : option error;
  jobs : list job;
  jobsClosed : bool;
  errChan : list error;
  workers : list worker;
  prod : producer;
  submitted : list job;
  started : list job;
  failures : list error
}.

Definition jobsCap : nat := 1000.
Definition errChanCap : nat := 2000.

Definition setCaller (x : option error) (st : state) : state :=
  {| callerErr := x; ctxErr := ctxErr st; jobs := jobs st; jobsClosed := jobsClosed st;
     errChan := errChan st; workers := workers st; prod := prod st;
     submitted := submitted st; started := started st; failures := failures st |}.
Definition setCtx (x : option error) (st : state) : state :=
  {| callerErr := callerErr st; ctxErr := x; jobs := jobs st; jobsClosed := jobsClosed st;
     errChan := errChan st; workers := workers st; prod := prod st;
     submitted := submitted st; started := started st; failures := failures st |}.
Definition setJobs (x : list job) (st : state) : state :=
  {| callerErr := callerErr st; ctxErr := ctxErr st; jobs := x; jobsClosed := jobsClosed st;
     errChan := errChan st; workers := workers st; prod := prod st;
     submitted := submitted st; started := started st; failures := failures st |}.
Definition setClosed (x : bool) (st : state) : state :=
  {| callerErr := callerErr st; ctxErr := ctxErr st; jobs := jobs st; jobsClosed := x;
     errChan := errChan st; workers := workers st; prod := prod st;
     submitted := submitted st; started := started st; failures := failures st |}.
Definition setErrChan (x : list error) (st : state) : state :=
  {| callerErr := callerErr st; ctxErr := ctxErr st; jobs := jobs st; jobsClosed := jobsClosed st;
     errChan := x; workers := workers st; prod := prod st;
     submitted := submitted st; started := started st; failures := failures st |}.
Definition setWorkers (x : list worker) (st : state) : state :=
  {| callerErr := callerErr st; ctxErr := ctxErr st; jobs := jobs st; jobsClosed := jobsClosed st;
     errChan := errChan st; workers := x; prod := prod st;
     submitted := submitted st; started := started st; failures := failures st |}.
Definition setProd (x : producer) (st : state) : state :=
  {| callerErr := callerErr st; ctxErr := ctxErr st; jobs := jobs st; jobsClosed := jobsClosed st;
     errChan := errChan st; workers := workers st; prod := x;
     submitted := submitted st; started := started st; failures := failures st |}.
Definition setSubmitted (x : list job) (st : state) : state :=
  {| callerErr := callerErr st; ctxErr := ctxErr st; jobs := jobs st; jobsClosed := jobsClosed st;
     errChan := errChan st; workers := workers st; prod := prod st;
     submitted := x; started := started st; failures := failures st |}.
Definition setStarted (x : list job) (st : state) : state :=
  {| callerErr := callerErr st; ctxErr := ctxErr st; jobs := jobs st; jobsClosed := jobsClosed st;
     errChan := errChan st; workers := workers st; prod := prod st;
     submitted := submitted st; started := x; failures := failures st |}.
Definition setFailures (x : list error) (st : state) : state :=
  {| callerErr := callerErr st; ctxErr := ctxErr st; jobs := jobs st; jobsClosed := jobsClosed st;
     errChan := errChan st; workers := workers st; prod := prod st;
     submitted := submitted st; started := started st; failures := x |}.

Definition setWorker (i : nat) (w : worker) (st : state) : state :=
  setWorkers (<[i := w]> (workers st)) st.

(** A context that is done keeps its first error: [cancel()] and the end
    of the parent context only act on a live context. *)
Definition cancelWith (err : error) (st : state) : state :=
  match ctxErr st with
  | None => setCtx (Some err) st
  | Some _ => st
  end.

(** [jobs <- j] *)
Definition send (j : job) (st : state) : state :=
  setSubmitted (submitted st ++ [j]) (setJobs (jobs st ++ [j]) st).

(** [select { case errChan <- err: default: }] after an executor returned
    [err]: the error is dropped when the buffer is full. *)
Definition offer (err : error) (st : state) : state :=
  setFailures (failures st ++ [err])
    (if decide (length (errChan st) < errChanCap)%nat
     then setErrChan (errChan st ++ [err]) st else st).

(** The return value once [wg.Wait()] is over: the context error unless it
    is nil or [context.Canceled], else the first error of [errChan], else
    nil.  The deferred [cancel()] runs after this value is computed. *)
Definition returnValue (st : state) : option error :=
  match ctxErr st with
  | Some err => if decide (err = Canceled) then head (errChan st) else Some err
  | None => head (errChan st)
  end.

Definition running (st : state) : Prop :=
  match prod st with PReturned _ => False | _ => True end.

Definition copyJob (c : executeCall) (p : string) : job :=
  {| path := p; fn := copyFunc c |}.
Definition deleteJob (c : executeCall) (p : string) : job :=
  {| path := p; fn := deleteFunc c |}.

Section ExecuteSync.
Variable s : Syncer.
Variable c : executeCall.

Definition init : state :=
  {| callerErr := None; ctxErr := None; jobs := []; jobsClosed := false;
     errChan := []; workers := replicate (Z.to_nat (concurrency s)) WSelect;
     prod := PStart; submitted := []; started := []; failures := [] |}.

(** One atomic action of the caller's context, of a worker or of the
    producer.  A [select] with several ready cases may take any of them;
    a [range] over a map yields its entries in any order; an executor
    returns nil or any error; the caller's context ends, if it does, with
    [Canceled] or [DeadlineExceeded], and the derived context with it. *)
Inductive step : state -> state -> Prop :=
| step_caller_done st err :
    running st -> callerErr st = None ->
    err = Canceled \/ err = DeadlineExceeded ->
    step st (setCaller (Some err) (cancelWith err st))
| step_worker_done st i :
    workers st !! i = Some WSelect -> ctxErr st <> None ->
    step st (setWorker i WExited st)
| step_worker_recv st i j q :
    workers st !! i = Some WSelect -> jobs st = j :: q ->
    step st (setWorker i (WExec j) (setStarted (started st ++ [j]) (setJobs q st)))
| step_worker_closed st i :
    workers st !! i = Some WSelect -> jobs st = [] -> jobsClosed st = true ->
    step st (setWorker i WExited st)
| step_exec_ok st i j :
    workers st !! i = Some (WExec j) ->
    step st (setWorker i WSelect st)
| step_exec_err st i j err :
    workers st !! i = Some (WExec j) ->
    step st (setWorker i WFailed (offer err st))
| step_worker_cancel st i :
    workers st !! i = Some WFailed ->
    step st (setWorker i WExited (cancelWith Canceled st))
| step_copy_range st order :
    prod st = PStart -> order ≡ₚ map_to_list (srcObjs c) ->
    step st (setProd (PCopyRange order) st)
| step_copy_end st :
    prod st = PCopyRange [] ->
    step st (setProd PDeleteCheck st)
| step_copy_break st e rest :
    prod st = PCopyRange (e :: rest) -> ctxErr st <> None ->
    step st (setProd PDeleteCheck st)
| step_copy_decide st p srcInfo rest :
    prod st = PCopyRange ((p, srcInfo) :: rest) -> ctxErr st = None ->
    step st (setProd (if shouldCopy srcInfo (dstObjs c !! p)
                      then PCopySubmit (copyJob c p) rest
                      else PCopyRange rest) st)
| step_copy_send st j rest :
    prod st = PCopySubmit j rest -> (length (jobs st) < jobsCap)%nat ->
    step st (setProd (PCopyRange rest) (send j st))
| step_copy_abort st j rest :
    prod st = PCopySubmit j rest -> ctxErr st <> None ->
    step st (setProd PDeleteCheck st)
| step_delete_off st :
    prod st = PDeleteCheck -> deleteDestination s = false ->
    step st (setProd PClose st)
| step_delete_range st order :
    prod st = PDeleteCheck -> deleteDestination s = true ->
    order ≡ₚ map_to_list (dstObjs c) ->
    step st (setProd (PDeleteRange order) st)
| step_delete_end st :
    prod st = PDeleteRange [] ->
    step st (setProd PClose st)
| step_delete_break st e rest :
    prod st = PDeleteRange (e :: rest) -> ctxErr st <> None ->
    step st (setProd PClose st)
| step_delete_decide st p dstInfo rest :
    prod st = PDeleteRange ((p, dstInfo) :: rest) -> ctxErr st = None ->
    step st (setProd (if shouldDelete (srcObjs c !! p)
                      then PDeleteSubmit (deleteJob c p) rest
                      else PDeleteRange rest) st)
| step_delete_send st j rest :
    prod st = PDeleteSubmit j rest -> (length (jobs st) < jobsCap)%nat ->
    step st (setProd (PDeleteRange rest) (send j st))
| step_delete_abort st j rest :
    prod st = PDeleteSubmit j rest -> ctxErr st <> None ->
    step st (setProd PClose st)
| step_close st :
    prod st = PClose ->
    step st (setProd PWait (setClosed true st))
| step_return st :
    prod st = PWait -> Forall (eq WExited) (workers st) ->
    step st (setProd (PReturned (returnValue st)) st).

(** The states a call of [executeSync] can be in. *)
Definition reachable (st : state) : Prop := rtc step init st.

(** Executor invocations in flight. *)
Definition isExec (w : worker) : bool :=
  match w with WExec _ => true | _ => false end.
Definition inFlight (st : state) : nat :=
  length (List.filter isExec (workers st)).

(** The jobs of the plan: what the two loops submit when nothing stops
    them, for the iteration orders of the maps themselves. *)
Definition plan : list job :=
  (copyJob c <$> copySet c) ++ (deleteJob c <$> deleteSet s c).
End ExecuteSync.

(** A call of [Sync] returns [r] after the executors of [ran] were
    invoked: either the orchestrator fails before [executeSync], or
    [executeSync] runs to its return. *)
Inductive SyncReturns (fs : FileSystem) (s : Syncer) (src dst : string)
    : list job -> option error -> Prop :=
| SyncReturns_early evs err :
    Sync fs s src dst = (evs, inl err) ->
    SyncReturns fs s src dst [] (Some err)
| SyncReturns_executed evs c st r :
    Sync fs s src dst = (evs, inr c) ->
    reachable s c st -> prod st = PReturned r ->
    SyncReturns fs s src dst (started st) r.

(** ** Scenarios

    Concrete stores, file systems and calls on which the properties are
    exercised. *)

(** A bucket listing in two pages under the prefix ["data"]: the prefix
    key itself, two files, the sentinel, and an object of a sibling
    prefix. *)
Definition scenarioClient : S3Client :=
  {| ListObjectsV2 := fun _ _ =>
       [ inr [ {| objKey := Some "data/"; objSize := Some 0; objLastModified := Some 5 |};
               {| objKey := Some "data/a.txt"; objSize := Some 12; objLastModified := Some 10 |} ];
         inr [ {| objKey := Some "data/sub/b.txt"; objSize := Some 9; objLastModified := Some 20 |};
               {| objKey := Some "data/.s3sync_done"; objSize := Some 3; objLastModified := Some 30 |};
               {| objKey := Some "database/c.txt"; objSize := Some 7; objLastModified := Some 40 |} ] ] |}.

(** A store whose second page fails. *)
Definition failingClient : S3Client :=
  {| ListObjectsV2 := fun _ _ =>
       [ inr [ {| objKey := Some "a.txt"; objSize := Some 12; objLastModified := Some 10 |} ];
         inl (ErrIO "access denied") ] |}.

(** The filter [main] installs, for the paths of the scenarios. *)
Definition scenarioFilter (p : string) : bool :=
  negb (String.eqb p ".s3sync_done").

Definition file (p : string) (size mtime : Z) : walkCall :=
  {| wpath := p;
     wd := {| IsDir := false; Info := inr {| fiSize := size; fiModTime := mtime |} |};
     werr := None |}.

Definition dir (p : string) : walkCall :=
  {| wpath := p; wd := {| IsDir := true; Info := inl (ErrIO "unused") |}; werr := None |}.

(** [filepath.Rel] for the paths of the scenarios: the path below the
    root. *)
Definition scenarioRel (root p : string) : error + string :=
  match stripPrefix (root +:+ "/") p with
  | Some r => inr r
  | None => inl (ErrIO "Rel: can't make path relative")
  end.

(** A volume with one file in sync with the bucket, one stale file and the
    sentinel. *)
Definition scenarioFS : FileSystem :=
  {| WalkDirCalls := fun root =>
       [ dir root;
         file (root +:+ "/a.txt") 12 15;
         file (root +:+ "/old.txt") 4 1;
         file (root +:+ "/.s3sync_done") 3 2 ];
     Rel := scenarioRel |}.

(** A volume with a directory that cannot be read. *)
Definition failingFS : FileSystem :=
  {| WalkDirCalls := fun root =>
       [ dir root;
         file (root +:+ "/a.txt") 12 15;
         {| wpath := root +:+ "/locked"; wd := {| IsDir := true; Info := inl (ErrIO "unused") |};
            werr := Some (ErrIO "permission denied") |} ];
     Rel := scenarioRel |}.

Definition scenarioSyncer (client : S3Client) (delete : bool) (n : Z) : Syncer :=
  {| client := client; deleteDestination := delete; concurrency := n;
     filter_ := Some scenarioFilter |}.

(** ** Invariants of a run *)

(** How far the producer is, as a relation [R] between what was submitted
    together with what the current loop has still to look at, and what the
    loops submit when they run to their ends. *)
Definition planInv (s : Syncer) (c : executeCall)
    (R : list job -> list job -> Prop) (st : state) : Prop :=
  let copyAll := copyJobs c (map_to_list (srcObjs c)) in
  let deleteAll := deleteJobs c (map_to_list (dstObjs c)) in
  match prod st with
  | PStart => submitted st = []
  | PCopyRange rest => R (submitted st ++ copyJobs c rest) copyAll
  | PCopySubmit j rest => R (submitted st ++ j :: copyJobs c rest) copyAll
  | PDeleteCheck => R (submitted st) copyAll
  | PDeleteRange rest =>
      deleteDestination s = true /\
      R (submitted st ++ deleteJobs c rest) (copyAll ++ deleteAll)
  | PDeleteSubmit j rest =>
      deleteDestination s = true /\
      R (submitted st ++ j :: deleteJobs c rest) (copyAll ++ deleteAll)
  | PClose | PWait | PReturned _ => R (submitted st) (plan s c)
  end.

(** The two contexts and the errors of the executors. *)
Definition ctxInv (st : state) : Prop :=
  (callerErr st <> None -> ctxErr st <> None) /\
  (forall e, ctxErr st = Some e ->
             e = Canceled \/ (e = DeadlineExceeded /\ callerErr st = Some DeadlineExceeded)) /\
  (failures st <> [] -> ctxErr st <> None \/ WFailed ∈ workers st).

(** The jobs the producer can still send once the context is done: the one
    it is already offering in [submit], where the [select] may take either
    case. *)
Definition lateSends (p : producer) : nat :=
  match p with
  | PCopySubmit _ _ | PDeleteSubmit _ _ => 1
  | _ => 0
  end.

Definition objectInfo (key : string) (size mtime : Z) : ObjectInfo :=
  {| Key := key; Size := size; ModTime := mtime |}.

(** The call the restore of the scenario volume makes: ["a.txt"] is on both
    sides with one size and a newer local copy, two objects are missing
    locally, ["old.txt"] is local only. *)
Definition scenarioCall : executeCall :=
  {| srcObjs := list_to_map [ ("a.txt", objectInfo "data/a.txt" 12 10);
                              ("sub/b.txt", objectInfo "data/sub/b.txt" 9 20);
                              ("base/c.txt", objectInfo "database/c.txt" 7 40) ];
     dstObjs := list_to_map [ ("a.txt", objectInfo "a.txt" 12 15);
                              ("old.txt", objectInfo "old.txt" 4 1) ];
     copyFunc := download "bucket" "data" "/data";
     deleteFunc := removeLocal "/data" |}.

(** The same call once the restore is over: the two objects are there, with
    their sizes and the time of the download, and ["old.txt"] is gone. *)
Definition scenarioCallAfter : executeCall :=
  {| srcObjs := srcObjs scenarioCall;
     dstObjs := list_to_map [ ("a.txt", objectInfo "a.txt" 12 15);
                              ("sub/b.txt", objectInfo "sub/b.txt" 9 50);
                              ("base/c.txt", objectInfo "base/c.txt" 7 50) ];
     copyFunc := copyFunc scenarioCall;
     deleteFunc := deleteFunc scenarioCall |}.

(** ** Schedules

    A schedule names the actions of a run one by one, so that a run can be
    computed.  [ARange] starts a loop over a map in the order of
    [map_to_list]; [ANext] is the next action of the producer outside
    [submit]; [ASend] and [AAbort] are the two cases of the [select] in
    [submit]. *)
Inductive action : Type :=
| ACallerDone (err : error)
| AWorkerDone (i : nat)
| ARecv (i : nat)
| AClosed (i : nat)
| AExecOk (i : nat)
| AExecErr (i : nat) (err : error)
| ACancel (i : nat)
| ARange
| ANext
| ASend
| AAbort.

#[global] Instance worker_eq_dec : EqDecision worker.
Proof. solve_decision. Defined.

Definition act (s : Syncer) (c : executeCall) (a : action) (st : state) : option state :=
  match a with
  | ACallerDone err =>
      match prod st, callerErr st with
      | PReturned _, _ => None
      | _, None =>
          if decide (err = Canceled \/ err = DeadlineExceeded)
          then Some (setCaller (Some err) (cancelWith err st)) else None
      | _, Some _ => None
      end
  | AWorkerDone i =>
      match workers st !! i, ctxErr st with
      | Some WSelect, Some _ => Some (setWorker i WExited st)
      | _, _ => None
      end
  | ARecv i =>
      match workers st !! i, jobs st with
      | Some WSelect, j :: q =>
          Some (setWorker i (WExec j) (setStarted (started st ++ [j]) (setJobs q st)))
      | _, _ => None
      end
  | AClosed i =>
      match workers st !! i, jobs st, jobsClosed st with
      | Some WSelect, [], true => Some (setWorker i WExited st)
      | _, _, _ => None
      end
  | AExecOk i =>
      match workers st !! i with
      | Some (WExec _) => Some (setWorker i WSelect st)
      | _ => None
      end
  | AExecErr i err =>
      match workers st !! i with
      | Some (WExec _) => Some (setWorker i WFailed (offer err st))
      | _ => None
      end
  | ACancel i =>
      match workers st !! i with
      | Some WFailed => Some (setWorker i WExited (cancelWith Canceled st))
      | _ => None
      end
  | ARange =>
      match prod st with
      | PStart => Some (setProd (PCopyRange (map_to_list (srcObjs c))) st)
      | PDeleteCheck =>
          if deleteDestination s
          then Some (setProd (PDeleteRange (map_to_list (dstObjs c))) st) else None
      | _ => None
      end
  | ANext =>
      match prod st with
      | PCopyRange [] => Some (setProd PDeleteCheck st)
      | PCopyRange ((p, srcInfo) :: rest) =>
          match ctxErr st with
          | Some _ => Some (setProd PDeleteCheck st)
          | None => Some (setProd (if shouldCopy srcInfo (dstObjs c !! p)
                                   then PCopySubmit (copyJob c p) rest
                                   else PCopyRange rest) st)
          end
      | PDeleteCheck =>
          if deleteDestination s then None else Some (setProd PClose st)
      | PDeleteRange [] => Some (setProd PClose st)
      | PDeleteRange ((p, dstInfo) :: rest) =>
          match ctxErr st with
          | Some _ => Some (setProd PClose st)
          | None => Some (setProd (if shouldDelete (srcObjs c !! p)
                                   then PDeleteSubmit (deleteJob c p) rest
                                   else PDeleteRange rest) st)
          end
      | PClose => Some (setProd PWait (setClosed true st))
      | PWait =>
          if decide (Forall (eq WExited) (workers st))
          then Some (setProd (PReturned (returnValue st)) st) else None
      | _ => None
      end
  | ASend =>
      match prod st with
      | PCopySubmit j rest =>
          if decide (length (jobs st) < jobsCap)%nat
          then Some (setProd (PCopyRange rest) (send j st)) else None
      | PDeleteSubmit j rest =>
          if decide (length (jobs st) < jobsCap)%nat
          then Some (setProd (PDeleteRange rest) (send j st)) else None
      | _ => None
      end
  | AAbort =>
      match prod st, ctxErr st with
      | PCopySubmit _ _, Some _ => Some (setProd PDeleteCheck st)
      | PDeleteSubmit _ _, Some _ => Some (setProd PClose st)
      | _, _ => None
      end
  end.

Fixpoint run (s : Syncer) (c : executeCall) (acts : list action) (st : state)
    : option state :=
  match acts with
  | [] => Some st
  | a :: acts' =>
      match act s c a st with
      | Some st' => run s c acts' st'
      | None => None
      end
  end.

(** [P] holds of the state a schedule ends in. *)
Definition endsIn (s : Syncer) (c : executeCall) (acts : list action)
    (st : state) (P : state -> Prop) : Prop :=
  match run s c acts st with
  | Some st' => P st'
  | None => False
  end.

(** Schedules of the restore of the scenario volume.  [range] yields the
    source as ["sub/b.txt"], ["a.txt"], ["base/c.txt"] and the destination
    as ["old.txt"], ["a.txt"]. *)

(** Everything is submitted, then one worker runs the three jobs. *)
Definition okSchedule : list action :=
  [ARange; ANext; ASend; ANext; ANext; ASend; ANext;
   ARange; ANext; ASend; ANext; ANext; ANext;
   ARecv 0; AExecOk 0; ARecv 0; AExecOk 0; ARecv 0; AExecOk 0; AClosed 0; ANext].

(** Two workers run the two copies; worker 1 fails first, worker 0 later. *)
Definition failSchedule : list action :=
  [ARange; ANext; ASend; ANext; ANext; ASend; ARecv 0; ARecv 1;
   AExecErr 1 (ErrIO "NoSuchKey"); AExecErr 0 (ErrIO "disk full");
   ACancel 1; ACancel 0; ANext; ANext; ANext; ANext].

(** The caller's deadline passes while the first copy is in flight; the
    copy then fails. *)
Definition deadlineSchedule : list action :=
  [ARange; ANext; ASend; ARecv 0; ACallerDone DeadlineExceeded;
   AExecErr 0 (ErrIO "disk full"); ACancel 0; ANext; ANext; ANext; ANext].

(** Both copies are queued, worker 0 takes the first, fails and cancels. *)
Definition firstFailureSchedule : list action :=
  [ARange; ANext; ASend; ANext; ANext; ASend; ARecv 0;
   AExecErr 0 (ErrIO "disk full"); ACancel 0].

(** The caller cancels while the first copy is in flight ... *)
Definition cancelInFlightSchedule : list action :=
  [ARange; ANext; ASend; ARecv 0; ACallerDone Canceled].

(** ... and the copy fails afterwards. *)
Definition failAfterCancelSchedule : list action :=
  [AExecErr 0 (ErrIO "context canceled"); ACancel 0; ANext; ANext; ANext; ANext].

(** The caller cancels while the first copy is queued; nothing is run. *)
Definition cancelQueuedSchedule : list action :=
  [ARange; ANext; ASend; ACallerDone Canceled; ANext; ANext; ANext;
   AWorkerDone 0; ANext].

(** A state in which nothing is in flight and nothing has gone wrong: the
    context is live, the channels are empty and every submitted job has
    been run. *)
Definition idle (ws : list worker) (p : producer) (closed : bool) (ran : list job) : state :=
  {| callerErr := None; ctxErr := None; jobs := []; jobsClosed := closed;
     errChan := []; workers := ws; prod := p;
     submitted := ran; started := ran; failures := [] |}.

(** ** config.go *)

Record Config : Type := {
  S3Path : string;
  VolumeName : string;
  VolumePath : string;
  SyncSchedule : string;
  DockerStopGracePeriod : Z;
  DeleteDestination : bool;
  Concurrency : Z
}.

(** What [Load] reads: [os.Getenv], [time.ParseDuration] (a duration in
    nanoseconds) and [fmt.Sscanf] with ["%d"]. *)
Record Environment : Type := {
  Getenv : string -> string;
  ParseDuration : string -> error + Z;
  Sscanf : string -> error + Z
}.

(** [time.Minute], in nanoseconds. *)
Definition Minute : Z := 60 * 1000000000.

(** [DockerStopGracePeriod] as [Load] sets it. *)
Definition loadGracePeriod (env : Environment) : error + Z :=
  let gracePeriodStr := Getenv env "DOCKER_STOP_GRACE_PERIOD" in
  if String.eqb gracePeriodStr "" then inr (2 * Minute)
  else
    match ParseDuration env gracePeriodStr with
    | inl err => inl (Errorf "invalid DOCKER_STOP_GRACE_PERIOD" err)
    | inr d => inr d
    end.

(** [config.Load]; an error made of a message only is an [ErrIO]. *)
Definition Load (env : Environment) : error + Config :=
  if String.eqb (Getenv env "S3_PATH") "" then
    inl (ErrIO "S3_PATH environment variable is required")
  else if String.eqb (Getenv env "SYNC_SCHEDULE") "" then
    inl (ErrIO "SYNC_SCHEDULE environment variable is required")
  else
    match loadGracePeriod env with
    | inl err => inl err
    | inr d =>
        inr {| S3Path := Getenv env "S3_PATH";
               VolumeName := Getenv env "VOLUME_NAME";
               VolumePath := if String.eqb (Getenv env "VOLUME_PATH") "" then "/data"
                             else Getenv env "VOLUME_PATH";
               SyncSchedule := Getenv env "SYNC_SCHEDULE";
               DockerStopGracePeriod := d;
               DeleteDestination := String.eqb (Getenv env "SYNC_DELETE") "true";
               Concurrency := loadConcurrency (Getenv env "SYNC_CONCURRENCY")
                                (Sscanf env (Getenv env "SYNC_CONCURRENCY")) |}
    end.

(** ** cmd/s3sync: the syncer [main] builds *)

(** [strings.HasSuffix(s, suffix)] *)
Definition HasSuffix (s suffix : string) : bool :=
  (String.length suffix <=? String.length s)%nat &&
  String.eqb (substring (String.length s - String.length suffix)
                (String.length suffix) s) suffix.

Definition sentinelFilename : string := ".s3sync_done".

(** The filter [main] passes to [WithFilter]. *)
Definition sentinelFilter (p : string) : bool :=
  negb (HasSuffix p sentinelFilename).

(** [syncer.New(ctx, WithConcurrency(...), WithDelete(...), WithFilter(...))]
    as [main] calls it. *)
Definition mainSyncer (sdkConfig : error + S3Client) (cfg : Config) : error + Syncer :=
  New sdkConfig [WithConcurrency (Concurrency cfg);
                 WithDelete (DeleteDestination cfg);
                 WithFilter sentinelFilter].

(** ** dockermanager/manager.go *)

Record MountPoint : Type := {
  mountType : string;
  mountName : string
}.

(** [container.Summary], as far as the manager reads it. *)
Record Summary : Type := {
  ID : string;
  Names : list string;
  Mounts : list MountPoint
}.

(** The Docker client: the outcome of [ContainerList] and, for each
    container id, of [ContainerStop] and [ContainerStart] ([None] is a nil
    error). *)
Record DockerClient : Type := {
  ContainerList : error + list Summary;
  ContainerStop : string -> option error;
  ContainerStart : string -> option error
}.

(** The calls made on the client that change a container. *)
Inductive dockerCall : Type :=
| CallStop (id : string)
| CallStart (id : string).

#[global] Instance dockerCall_eq_dec : EqDecision dockerCall.
Proof. solve_decision. Defined.

(** The inner loop over [c.Mounts], with its [break]. *)
Definition isAttached (volumeName : string) (c : Summary) : bool :=
  existsb (fun m => String.eqb (mountType m) "volume" &&
                    String.eqb (mountName m) volumeName) (Mounts c).

(** [c.ID == selfID || (len(c.ID) >= 12 && len(selfID) >= 12 &&
    c.ID[:12] == selfID[:12])] *)
Definition isSelf (selfID : string) (c : Summary) : bool :=
  String.eqb (ID c) selfID ||
  ((12 <=? String.length (ID c))%nat && (12 <=? String.length selfID)%nat &&
   String.eqb (substring 0 12 (ID c)) (substring 0 12 selfID)).

(** The loop of [StopContainersAttachedToVolume] over the listed
    containers: the stop calls made, the ids stopped and the error.  The
    timeout passed with each stop is not part of the model. *)
Fixpoint stopLoop (cl : DockerClient) (selfID volumeName : string)
    (containers : list Summary) (stoppedIDs : list string)
    : list dockerCall * (list string * option error) :=
  match containers with
  | [] => ([], (stoppedIDs, None))
  | c :: rest =>
      if isAttached volumeName c then
        if isSelf selfID c then stopLoop cl selfID volumeName rest stoppedIDs
        else
          match ContainerStop cl (ID c) with
          | Some err =>
              ([CallStop (ID c)],
               (stoppedIDs, Some (Errorf ("failed to stop container " +:+ ID c) err)))
          | None =>
              let '(calls, r) :=
                stopLoop cl selfID volumeName rest (stoppedIDs ++ [ID c]) in
              (CallStop (ID c) :: calls, r)
          end
      else stopLoop cl selfID volumeName rest stoppedIDs
  end.

(** [hostname] is the outcome of [os.Hostname()]. *)
Definition StopContainersAttachedToVolume (hostname : error + string)
    (cl : DockerClient) (volumeName : string)
    : list dockerCall * (list string * option error) :=
  match hostname with
  | inl err => ([], ([], Some (Errorf "failed to get hostname (self container ID)" err)))
  | inr selfID =>
      match ContainerList cl with
      | inl err => ([], ([], Some (Errorf "failed to list containers" err)))
      | inr containers => stopLoop cl selfID volumeName containers []
      end
  end.

(** [StartContainers]: a failed start is logged and the loop goes on. *)
Fixpoint StartContainers (cl : DockerClient) (ids : list string)
    : list dockerCall * option error :=
  match ids with
  | [] => ([], None)
  | id :: rest =>
      let '(calls, r) := StartContainers cl rest in
      (CallStart id :: calls, r)
  end.

(** ** cmd/s3sync: the scheduled backup *)

(** What a scheduled backup does to the outside: calls on the Docker
    client and calls of [Sync]. *)
Inductive backupEvent : Type :=
| EvDocker (call : dockerCall)
| EvSync (src dst : string).

#[global] Instance backupEvent_eq_dec : EqDecision backupEvent.
Proof. solve_decision. Defined.

(** [stopContainers] of [main]: the partial list of a failed stop is
    replaced by nil. *)
Definition stopContainers (hostname : error + string) (cl : DockerClient)
    (cfg : Config) : list dockerCall * (list string * option error) :=
  if negb (String.eqb (VolumeName cfg) "") then
    let '(calls, (stopped, err)) :=
      StopContainersAttachedToVolume hostname cl (VolumeName cfg) in
    match err with
    | Some e => (calls, ([], Some (Errorf "stopping containers" e)))
    | None => (calls, (stopped, None))
    end
  else ([], ([], None)).

(** [restartContainers] of [main]. *)
Definition restartContainers (cl : DockerClient) (stopped : list string)
    : list dockerCall * option error :=
  match stopped with
  | [] => ([], None)
  | _ =>
      let '(calls, err) := StartContainers cl stopped in
      match err with
      | Some e => (calls, Some (Errorf "starting containers" e))
      | None => (calls, None)
      end
  end.

(** The function [sync] of [main] schedules; [syncResult] is what
    [s3Syncer.Sync] returns when it is called.  Errors are logged, so the
    events are all there is to observe. *)
Definition scheduledBackup (hostname : error + string) (cl : DockerClient)
    (cfg : Config) (syncResult : option error) : list backupEvent :=
  let '(stopCalls, (stopped, stopErr)) := stopContainers hostname cl cfg in
  let syncEvents :=
    match stopErr with
    | None => [EvSync (VolumePath cfg) (S3Path cfg)]
    | Some _ => []
    end in
  let '(startCalls, _) := restartContainers cl stopped in
  (EvDocker <$> stopCalls) ++ syncEvents ++ (EvDocker <$> startCalls).

(** ** Snapshots as lists of entries *)

(** The entry the callback of [WalkLocal] inserts for a call, if it
    inserts one. *)
Definition walked (fs : FileSystem) (root : string)
    (filter : option (string -> bool)) (c : walkCall) : option (string * ObjectInfo) :=
  match werr c with
  | Some _ => None
  | None =>
      if IsDir (wd c) then None
      else
        match Rel fs root (wpath c) with
        | inl _ => None
        | inr relPath =>
            if rejected filter relPath then None
            else
              match Info (wd c) with
              | inl _ => None
              | inr info => Some (relPath, {| Key := relPath;
                                              Size := fiSize info;
                                              ModTime := fiModTime info |})
              end
        end
  end.

(** The snapshot a sequence of insertions leaves: for a path inserted
    several times the last insertion stays. *)
Definition lastWins (entries : list (string * ObjectInfo)) : gmap string ObjectInfo :=
  list_to_map (reverse entries).

(** A string without the separator ["/"]. *)
Definition noSlash (s : string) : Prop :=
  ~ In "/"%char (list_ascii_of_string s).

(** A bucket in which an object under the prefix ["data"] and an object
    of the sibling prefix ["database"] have the same relative path. *)
Definition collidingClient : S3Client :=
  {| ListObjectsV2 := fun _ _ =>
       [ inr [ {| objKey := Some "data/base/c.txt"; objSize := Some 1;
                  objLastModified := Some 10 |} ];
         inr [ {| objKey := Some "database/c.txt"; objSize := Some 7;
                  objLastModified := Some 40 |} ] ] |}.

(** The environment of the compose example: a daily backup with pruning
    and four workers; the grace period is left unset and the scanner reads
    decimal ["4"]. *)
Definition scenarioEnv : Environment :=
  {| Getenv := fun name =>
       if String.eqb name "S3_PATH" then "s3://bucket/data"
       else if String.eqb name "SYNC_SCHEDULE" then "@daily"
       else if String.eqb name "SYNC_DELETE" then "true"
       else if String.eqb name "SYNC_CONCURRENCY" then "4"
       else "";
     ParseDuration := fun _ => inl (ErrIO "time: invalid duration");
     Sscanf := fun str => if String.eqb str "4" then inr 4
                          else inl (ErrIO "expected integer") |}.

(** The same with a grace period that does not parse. *)
Definition badGraceEnv : Environment :=
  {| Getenv := fun name =>
       if String.eqb name "DOCKER_STOP_GRACE_PERIOD" then "invalid"
       else Getenv scenarioEnv name;
     ParseDuration := ParseDuration scenarioEnv;
     Sscanf := Sscanf scenarioEnv |}.

(** The ids [StopContainersAttachedToVolume] sets out to stop: the listed
    containers attached to the volume that are not the manager itself, in
    listing order. *)
Definition stopTargets (selfID volumeName : string) (containers : list Summary)
    : list string :=
  ID <$> List.filter (fun c => isAttached volumeName c && negb (isSelf selfID c))
           containers.

Definition container (id name volume : string) : Summary :=
  {| ID := id; Names := [name];
     Mounts := [ {| mountType := "bind"; mountName := "" |};
                 {| mountType := "volume"; mountName := volume |} ] |}.

(** A host with a database and a cache on the volume ["db_data"], the
    backup sidecar itself on it too (its hostname is the first twelve
    characters of its id), and a web server on another volume.  The cache
    refuses to stop when [cacheStops] is false. *)
Definition scenarioDocker (cacheStops : bool) : DockerClient :=
  {| ContainerList :=
       inr [ container "1111aaaa2222bbbb" "/db" "db_data";
             container "5555eeee6666ffff" "/backup" "db_data";
             container "3333cccc4444dddd" "/web" "web_data";
             container "7777aaaa8888bbbb" "/cache" "db_data" ];
     ContainerStop := fun id =>
       if String.eqb id "7777aaaa8888bbbb" && negb cacheStops
       then Some (ErrIO "cannot stop container") else None;
     ContainerStart := fun id =>
       if String.eqb id "1111aaaa2222bbbb" then Some (ErrIO "cannot start container")
       else None |}.

Definition scenarioConfig : Config :=
  {| S3Path := "s3://bucket/data"; VolumeName := "db_data"; VolumePath := "/data";
     SyncSchedule := "@daily"; DockerStopGracePeriod := 2 * Minute;
     DeleteDestination := true; Concurrency := 4 |}.

(** A worker that has failed or returned: one that may have sent its
    error. *)
Definition isDone (w : worker) : bool :=
  match w with WFailed | WExited => true | _ => false end.

(** The queue is closed only once the producer waits, and while the
    context is live a worker has returned only from a closed and empty
    queue. *)
Definition closeInv (st : state) : Prop :=
  (jobsClosed st = true -> prod st = PWait \/ exists r, prod st = PReturned r) /\
  (ctxErr st = None ->
   forall i, workers st !! i = Some WExited -> jobs st = [] /\ jobsClosed st = true).

(** The producer goes through both loops and returns; there is no worker
    to take a job. *)
Definition noWorkerSchedule : list action :=
  [ARange; ANext; ASend; ANext; ANext; ASend; ANext; ANext; ANext; ANext].

(** ** Further scenarios *)

(** The scenario volume with a sentinel whose metadata cannot be read:
    [Info()] fails for it. *)
Definition lockedSentinelFS : FileSystem :=
  {| WalkDirCalls := fun root =>
       [ dir root;
         file (root +:+ "/a.txt") 12 15;
         {| wpath := root +:+ "/.s3sync_done";
            wd := {| IsDir := false; Info := inl (ErrIO "permission denied") |};
            werr := None |} ];
     Rel := scenarioRel |}.

(** A listing with an object that has no key and an object that has
    neither size nor time. *)
Definition malformedClient : S3Client :=
  {| ListObjectsV2 := fun _ _ =>
       [ inr [ {| objKey := None; objSize := Some 3; objLastModified := Some 10 |};
               {| objKey := Some "data/a.txt"; objSize := None;
                  objLastModified := None |} ] ] |}.

(** The first copy fails and its worker cancels the context; the caller's
    deadline passes afterwards. *)
Definition lateDeadlineSchedule : list action :=
  [ARange; ANext; ASend; ARecv 0; AExecErr 0 (ErrIO "disk full"); ACancel 0;
   ACallerDone DeadlineExceeded; ANext; ANext; ANext; ANext].

(** The caller cancels while both copies are in flight; both fail
    afterwards, worker 1 first. *)
Definition cancelTwoInFlightSchedule : list action :=
  [ARange; ANext; ASend; ANext; ANext; ASend; ARecv 0; ARecv 1;
   ACallerDone Canceled;
   AExecErr 1 (ErrIO "NoSuchKey"); AExecErr 0 (ErrIO "disk full");
   ACancel 1; ACancel 0; ANext; ANext; ANext; ANext].

(** * Properties *)

(** ** Strings *)

Lemma stripPrefix_app (p r : string) : stripPrefix p (p +:+ r) = Some r.
Proof.
  induction p as [|a p IH]; simpl; [done|].
  by rewrite Ascii.eqb_refl.
Qed.

Lemma stripPrefix_Some (p s r : string) : stripPrefix p s = Some r -> s = p +:+ r.
Proof.
  revert s; induction p as [|a p IH]; intros s; simpl.
  - by intros [= ->].
  - destruct s as [|b s]; [done|].
    destruct (Ascii.eqb_spec a b) as [->|]; [|done].
    intros H. by rewrite (IH _ H).
Qed.

Lemma HasPrefix_app (p r : string) : HasPrefix (p +:+ r) p = true.
Proof. unfold HasPrefix. by rewrite stripPrefix_app. Qed.

Lemma TrimPrefix_app (p r : string) : TrimPrefix (p +:+ r) p = r.
Proof. unfold TrimPrefix. by rewrite stripPrefix_app. Qed.

Lemma HasPrefix_true (s p : string) :
  HasPrefix s p = true -> exists r, s = p +:+ r /\ TrimPrefix s p = r.
Proof.
  unfold HasPrefix, TrimPrefix.
  destruct (stripPrefix p s) as [r|] eqn:E; [|done].
  intros _. exists r. split; [by apply stripPrefix_Some|done].
Qed.

(** Removing a leading separator removes one separator and no more. *)
Lemma TrimPrefix_slash (r : string) :
  TrimPrefix r "/" =
    match r with
    | String a r' => if Ascii.eqb "/"%char a then r' else r
    | EmptyString => EmptyString
    end.
Proof.
  unfold TrimPrefix. destruct r as [|a r']; [done|].
  cbn [stripPrefix]. by destruct (Ascii.eqb "/"%char a).
Qed.

(** ** The enumerators *)

Section ListSpec.
Variable prefix : string.
Variable filter : option (string -> bool).

Lemma listObject_listed objs obj :
  listObject prefix filter objs obj =
    match listed prefix filter obj with
    | Some (p, info) => <[p := info]> objs
    | None => objs
    end.
Proof.
  unfold listObject, listed.
  destruct (relPathOf _ _) as [rp|]; [|done].
  destruct (String.eqb rp ""); [done|].
  by destruct (rejected filter rp).
Qed.

Lemma fold_listObject_lookup contents objs p info :
  fold_left (listObject prefix filter) contents objs !! p = Some info ->
  objs !! p = Some info \/ exists obj, obj ∈ contents /\ listed prefix filter obj = Some (p, info).
Proof.
  revert objs; induction contents as [|obj contents IH]; intros objs; simpl.
  - by left.
  - intros H. destruct (IH _ H) as [H1|(o & Ho & Hl)].
    + rewrite listObject_listed in H1.
      destruct (listed prefix filter obj) as [[q i]|] eqn:E; [|by left].
      destruct (decide (q = p)) as [->|Hne].
      * rewrite lookup_insert_eq in H1. injection H1 as ->.
        right. exists obj. split; [left|done].
      * rewrite lookup_insert_ne in H1 by done. by left.
    + right. exists o. split; [by right|done].
Qed.

Lemma fold_listObject_mono contents objs p :
  is_Some (objs !! p) ->
  is_Some (fold_left (listObject prefix filter) contents objs !! p).
Proof.
  revert objs; induction contents as [|obj contents IH]; intros objs; simpl; [done|].
  intros H. apply IH. rewrite listObject_listed.
  destruct (listed prefix filter obj) as [[q i]|]; [|done].
  destruct (decide (q = p)) as [->|Hne].
  - rewrite lookup_insert_eq. by eexists.
  - by rewrite lookup_insert_ne.
Qed.

Lemma fold_listObject_in contents objs obj p info :
  obj ∈ contents -> listed prefix filter obj = Some (p, info) ->
  is_Some (fold_left (listObject prefix filter) contents objs !! p).
Proof.
  revert objs; induction contents as [|o contents IH]; intros objs Hin Hl.
  - by apply elem_of_nil in Hin.
  - simpl. apply elem_of_cons in Hin as [->|Hin].
    + apply fold_listObject_mono. rewrite listObject_listed, Hl.
      rewrite lookup_insert_eq. by eexists.
    + by eapply IH.
Qed.

(** Every entry of the snapshot was inserted for an object of a page. *)
Lemma listPages_lookup pages objs0 objs p info :
  listPages prefix filter pages objs0 = inr objs ->
  objs !! p = Some info ->
  objs0 !! p = Some info \/
  exists contents obj, inr contents ∈ pages /\ obj ∈ contents /\
                       listed prefix filter obj = Some (p, info).
Proof.
  revert objs0; induction pages as [|[err|contents] pages IH]; intros objs0; simpl.
  - intros [= ->]. by left.
  - done.
  - intros H Hp. destruct (IH _ H Hp) as [H1|(cs & o & Hcs & Ho & Hl)].
    + apply fold_listObject_lookup in H1 as [H1|(o & Ho & Hl)]; [by left|].
      right. exists contents, o. split; [left|done].
    + right. exists cs, o. split; [by right|done].
Qed.

Lemma listPages_mono pages objs0 objs p :
  listPages prefix filter pages objs0 = inr objs ->
  is_Some (objs0 !! p) -> is_Some (objs !! p).
Proof.
  revert objs0; induction pages as [|[err|contents] pages IH]; intros objs0; simpl.
  - by intros [= ->].
  - done.
  - intros H Hp. eapply IH; [done|]. by apply fold_listObject_mono.
Qed.

(** Every object of a page that [listObject] inserts is in the snapshot. *)
Lemma listPages_in pages objs0 objs contents obj p info :
  listPages prefix filter pages objs0 = inr objs ->
  inr contents ∈ pages -> obj ∈ contents -> listed prefix filter obj = Some (p, info) ->
  is_Some (objs !! p).
Proof.
  revert objs0; induction pages as [|[err|cs] pages IH]; intros objs0 H Hin Ho Hl.
  - by apply elem_of_nil in Hin.
  - done.
  - simpl in H. apply elem_of_cons in Hin as [[= ->]|Hin].
    + eapply listPages_mono; [done|]. by eapply fold_listObject_in.
    + by eapply IH.
Qed.

(** A failing page fails the listing. *)
Lemma listPages_error pages objs0 err :
  inl err ∈ pages -> exists e, listPages prefix filter pages objs0 = inl e.
Proof.
  revert objs0; induction pages as [|[e|cs] pages IH]; intros objs0 Hin.
  - by apply elem_of_nil in Hin.
  - simpl. by eexists.
  - simpl. apply elem_of_cons in Hin as [[=]|Hin]. by apply IH.
Qed.
End ListSpec.

Lemma listed_Some prefix filter obj p info :
  listed prefix filter obj = Some (p, info) ->
  relPathOf prefix (ToString (objKey obj)) = Some p /\ p <> "" /\
  rejected filter p = false /\ Key info = ToString (objKey obj).
Proof.
  unfold listed. destruct (relPathOf _ _) as [rp|]; [|done].
  destruct (String.eqb_spec rp ""); [done|].
  destruct (rejected filter rp) eqn:E; [done|].
  intros [= <- <-]. done.
Qed.

Section WalkSpec.
Variable fs : FileSystem.
Variable root : string.
Variable filter : option (string -> bool).

Lemma walkFn_unreadable objects c :
  unreadable fs root filter c -> exists e, walkFn fs root filter objects c = inl e.
Proof.
  unfold walkFn. intros [[e He]|(Hd & [[e He]|(rp & e & Hr & Hf & Hi)])].
  - rewrite He. by eexists.
  - destruct (werr c); [by eexists|]. rewrite Hd, He. by eexists.
  - destruct (werr c); [by eexists|]. rewrite Hd, Hr, Hf, Hi. by eexists.
Qed.

Lemma WalkDir_unreadable calls objects :
  Exists (unreadable fs root filter) calls -> exists e, WalkDir fs root filter calls objects = inl e.
Proof.
  revert objects; induction calls as [|c calls IH]; intros objects H.
  - by apply Exists_nil in H.
  - simpl. apply Exists_cons in H as [H|H].
    + destruct (walkFn_unreadable objects c H) as [e ->]. by eexists.
    + destruct (walkFn fs root filter objects c); [by eexists|]. by apply IH.
Qed.

Lemma walkFn_filtered objects objects' c p :
  walkFn fs root filter objects c = inr objects' ->
  rejected filter p = true -> objects !! p = None -> objects' !! p = None.
Proof.
  unfold walkFn. destruct (werr c); [done|].
  destruct (IsDir (wd c)); [by intros [= <-]|].
  destruct (Rel fs root (wpath c)) as [|rp]; [done|].
  destruct (rejected filter rp) eqn:E; [by intros [= <-]|].
  destruct (Info (wd c)); [done|].
  intros [= <-] Hp Ho. rewrite lookup_insert_ne; [done|]. congruence.
Qed.

Lemma WalkDir_filtered calls objects objects' p :
  WalkDir fs root filter calls objects = inr objects' ->
  rejected filter p = true -> objects !! p = None -> objects' !! p = None.
Proof.
  revert objects; induction calls as [|c calls IH]; intros objects; simpl.
  - by intros [= <-].
  - destruct (walkFn fs root filter objects c) as [|o'] eqn:E; [done|].
    intros H Hp Ho. eapply IH; [done..|]. by eapply walkFn_filtered.
Qed.
End WalkSpec.

(** C5: a path the filter rejects is in no snapshot, of the remote listing
    or of the local walk, whatever the store and the file system hold. *)
Theorem filter_excludes_rejected_paths (fs : FileSystem) (client : S3Client)
    (bucket prefix root : string) (f : string -> bool) (p : string) :
  f p = false ->
  (forall objs, ListS3Objects client bucket prefix (Some f) = inr objs -> objs !! p = None) /\
  (forall objs, WalkLocal fs root (Some f) = inr objs -> objs !! p = None).
Proof.
  intros Hf. split; intros objs H.
  - destruct (objs !! p) as [info|] eqn:E; [|done]. exfalso.
    destruct (listPages_lookup _ _ _ _ _ _ _ H E) as [H0|(cs & o & _ & _ & Hl)].
    + by rewrite lookup_empty in H0.
    + apply listed_Some in Hl as (_ & _ & Hr & _). simpl in Hr.
      by rewrite Hf in Hr.
  - unfold WalkLocal in H.
    destruct (WalkDir fs root (Some f) (WalkDirCalls fs root) ∅) as [|o] eqn:E; [done|].
    injection H as ->. eapply WalkDir_filtered; [done| |apply lookup_empty].
    simpl. by rewrite Hf.
Qed.

Lemma filter_excludes_rejected_paths_witness :
  scenarioFilter ".s3sync_done" = false /\
  (forall objs, ListS3Objects scenarioClient "bucket" "data" (Some scenarioFilter) = inr objs ->
                objs !! ".s3sync_done" = None) /\
  (forall objs, WalkLocal scenarioFS "/data" (Some scenarioFilter) = inr objs ->
                objs !! ".s3sync_done" = None).
Proof.
  split; [reflexivity|].
  apply (filter_excludes_rejected_paths scenarioFS scenarioClient "bucket" "data" "/data"
           scenarioFilter ".s3sync_done").
  reflexivity.
Defined.

(** What [ListS3Objects] computes under a non-empty prefix: the relative
    path of a key is the key without the prefix, taken as a string, and
    without at most one separator after it; the snapshot holds exactly the
    non-empty, unfiltered relative paths of the listed keys that start with
    the prefix, so the prefix key itself (with or without its separator) is
    skipped. *)
Lemma ListS3Objects_strips_prefix (client : S3Client) (bucket prefix : string)
    (filter : option (string -> bool)) (objs : gmap string ObjectInfo) :
  prefix <> "" ->
  ListS3Objects client bucket prefix filter = inr objs ->
  (forall r, relPathOf prefix (prefix +:+ r) = Some (TrimPrefix r "/")) /\
  (forall r, TrimPrefix ("/" +:+ r) "/" = r) /\
  (forall r, HasPrefix r "/" = false -> TrimPrefix r "/" = r) /\
  (forall p info, objs !! p = Some info ->
     p <> "" /\ exists r, Key info = prefix +:+ r /\ p = TrimPrefix r "/") /\
  (forall contents obj r,
     inr contents ∈ ListObjectsV2 client bucket prefix -> obj ∈ contents ->
     ToString (objKey obj) = prefix +:+ r ->
     TrimPrefix r "/" <> "" -> rejected filter (TrimPrefix r "/") = false ->
     is_Some (objs !! TrimPrefix r "/")) /\
  objs !! "" = None.
Proof.
  intros Hne H.
  assert (Hrel : forall r, relPathOf prefix (prefix +:+ r) = Some (TrimPrefix r "/")).
  { intros r. unfold relPathOf.
    destruct (String.eqb_spec prefix ""); [done|]. simpl.
    by rewrite HasPrefix_app, TrimPrefix_app. }
  assert (Hent : forall p info, objs !! p = Some info ->
     p <> "" /\ exists r, Key info = prefix +:+ r /\ p = TrimPrefix r "/").
  { intros p info Hp.
    destruct (listPages_lookup _ _ _ _ _ _ _ H Hp) as [H0|(cs & o & _ & _ & Hl)].
    { by rewrite lookup_empty in H0. }
    apply listed_Some in Hl as (Hr & Hp0 & _ & Hk). split; [done|].
    unfold relPathOf in Hr. destruct (String.eqb_spec prefix ""); [done|]. simpl in Hr.
    destruct (HasPrefix (ToString (objKey o)) prefix) eqn:Eh; [|done]. simpl in Hr.
    apply HasPrefix_true in Eh as (r & Hkey & Htrim).
    exists r. rewrite Hk. rewrite Htrim in Hr. by injection Hr as <-. }
  split; [done|]. split; [intros r; apply (TrimPrefix_app "/")|].
  split.
  { intros r Hr. unfold TrimPrefix. unfold HasPrefix in Hr.
    by destruct (stripPrefix "/" r). }
  split; [done|]. split.
  - intros contents obj r Hc Ho Hk Hp Hf.
    eapply listPages_in; [exact H|exact Hc|exact Ho|].
    unfold listed. rewrite Hk, Hrel.
    destruct (String.eqb_spec (TrimPrefix r "/") ""); [done|].
    by rewrite Hf.
  - destruct (objs !! "") as [info|] eqn:E; [|done].
    by destruct (Hent _ _ E).
Qed.

Lemma ListS3Objects_strips_prefix_witness :
  exists objs,
    ListS3Objects scenarioClient "bucket" "data" (Some scenarioFilter) = inr objs /\
    dom objs = {[ "a.txt"; "sub/b.txt"; "base/c.txt" ]} /\
    objs !! "" = None.
Proof.
  eexists. split; [reflexivity|]. split; [by vm_compute|].
  apply (ListS3Objects_strips_prefix scenarioClient "bucket" "data" (Some scenarioFilter));
    [discriminate|reflexivity].
Defined.

(** C6: the prefix is cut as a string, not as a path segment.  Under the
    prefix ["data"] the key ["database/c.txt"], which is not under
    ["data/"], gets the relative path ["base/c.txt"], the one the key
    ["data/base/c.txt"] has.  The snapshot of the scenario bucket holds it
    under that path, and the restore plans a download of ["base/c.txt"]
    with the prefix ["data"], from which the executor makes the key
    ["data/base/c.txt"]: not the key that was listed. *)
Theorem ListS3Objects_prefix_as_string :
  relPathOf "data" "database/c.txt" = Some "base/c.txt" /\
  relPathOf "data" "data/base/c.txt" = Some "base/c.txt" /\
  (exists objs,
     ListS3Objects scenarioClient "bucket" "data" (Some scenarioFilter) = inr objs /\
     objs !! "base/c.txt" = Some (objectInfo "database/c.txt" 7 40)) /\
  (Sync scenarioFS (scenarioSyncer scenarioClient false 1) "s3://bucket/data" "/data").2
    = inr scenarioCall /\
  {| path := "base/c.txt"; fn := download "bucket" "data" "/data" |}
    ∈ plan (scenarioSyncer scenarioClient false 1) scenarioCall.
Proof.
  split; [reflexivity|]. split; [reflexivity|]. split; [|split].
  - eexists. split; [reflexivity|]. by vm_compute.
  - by vm_compute.
  - unfold plan. apply elem_of_app. left.
    apply (list_elem_of_fmap_2 (copyJob scenarioCall) _ "base/c.txt").
    vm_compute. repeat constructor.
Qed.

(** ** The orchestrator *)

Lemma SyncReturns_early_inv fs s src dst evs err ran r :
  Sync fs s src dst = (evs, inl err) ->
  SyncReturns fs s src dst ran r -> ran = [] /\ r = Some err.
Proof.
  intros H Hr. destruct Hr as [evs' err' H'|evs' c st r H' _ _].
  - rewrite H in H'. by injection H' as _ ->.
  - rewrite H in H'. discriminate.
Qed.

Lemma Sync_S3ToLocal fs s src dst :
  HasPrefix src "s3://" = true -> HasPrefix dst "s3://" = false ->
  Sync fs s src dst =
    (EvLog src dst :: (syncS3ToLocal fs s src dst).1, (syncS3ToLocal fs s src dst).2).
Proof.
  intros Hs Hd. unfold Sync. rewrite Hs, Hd. simpl.
  by destruct (syncS3ToLocal fs s src dst).
Qed.

Lemma Sync_LocalToS3 fs s src dst :
  HasPrefix src "s3://" = false -> HasPrefix dst "s3://" = true ->
  Sync fs s src dst =
    (EvLog src dst :: (syncLocalToS3 fs s src dst).1, (syncLocalToS3 fs s src dst).2).
Proof.
  intros Hs Hd. unfold Sync. rewrite Hs, Hd. simpl.
  by destruct (syncLocalToS3 fs s src dst).
Qed.

Lemma Sync_unsupported fs s src dst :
  HasPrefix src "s3://" = HasPrefix dst "s3://" ->
  Sync fs s src dst = ([EvLog src dst], inl (ErrUnsupported src dst)).
Proof.
  intros H. unfold Sync. rewrite H. by destruct (HasPrefix dst "s3://").
Qed.

(** C3: with both endpoints remote or both local [Sync] returns the
    unsupported-mode error after its log line only, no enumeration and no
    executor invocation; with exactly one remote endpoint it is
    [syncS3ToLocal] or [syncLocalToS3], by which one is remote. *)
Theorem Sync_mode (fs : FileSystem) (s : Syncer) (src dst : string) :
  (HasPrefix src "s3://" = HasPrefix dst "s3://" ->
     Sync fs s src dst = ([EvLog src dst], inl (ErrUnsupported src dst)) /\
     forall ran r, SyncReturns fs s src dst ran r ->
                   ran = [] /\ r = Some (ErrUnsupported src dst)) /\
  (HasPrefix src "s3://" = true -> HasPrefix dst "s3://" = false ->
     Sync fs s src dst =
       (EvLog src dst :: (syncS3ToLocal fs s src dst).1, (syncS3ToLocal fs s src dst).2)) /\
  (HasPrefix src "s3://" = false -> HasPrefix dst "s3://" = true ->
     Sync fs s src dst =
       (EvLog src dst :: (syncLocalToS3 fs s src dst).1, (syncLocalToS3 fs s src dst).2)).
Proof.
  split; [|split].
  - intros H. split; [by apply Sync_unsupported|].
    intros ran r. apply SyncReturns_early_inv with (evs := [EvLog src dst]).
    by apply Sync_unsupported.
  - apply Sync_S3ToLocal.
  - apply Sync_LocalToS3.
Qed.

Lemma Sync_mode_witness :
  Sync scenarioFS (scenarioSyncer scenarioClient true 4) "s3://a/x" "s3://b/y" =
    ([EvLog "s3://a/x" "s3://b/y"], inl (ErrUnsupported "s3://a/x" "s3://b/y")) /\
  Sync scenarioFS (scenarioSyncer scenarioClient true 4) "/data" "/backup" =
    ([EvLog "/data" "/backup"], inl (ErrUnsupported "/data" "/backup")) /\
  (Sync scenarioFS (scenarioSyncer scenarioClient true 4) "s3://bucket/data" "/data").1 =
    [EvLog "s3://bucket/data" "/data"; EvListS3 "bucket" "data"; EvWalkLocal "/data"] /\
  (Sync scenarioFS (scenarioSyncer scenarioClient true 4) "/data" "s3://bucket/data").1 =
    [EvLog "/data" "s3://bucket/data"; EvWalkLocal "/data"; EvListS3 "bucket" "data"].
Proof.
  split; [|split; [|split]].
  - apply (Sync_mode scenarioFS (scenarioSyncer scenarioClient true 4) "s3://a/x" "s3://b/y").
    reflexivity.
  - apply (Sync_mode scenarioFS (scenarioSyncer scenarioClient true 4) "/data" "/backup").
    reflexivity.
  - rewrite (proj1 (proj2 (Sync_mode scenarioFS (scenarioSyncer scenarioClient true 4)
                             "s3://bucket/data" "/data")) eq_refl eq_refl).
    reflexivity.
  - rewrite (proj2 (proj2 (Sync_mode scenarioFS (scenarioSyncer scenarioClient true 4)
                             "/data" "s3://bucket/data")) eq_refl eq_refl).
    reflexivity.
Defined.

Lemma listPages_inl_iff prefix filter pages objs e :
  listPages prefix filter pages objs = inl e <->
  exists (contents : list (list Object)) err rest,
    pages = (inr <$> contents) ++ inl err :: rest /\
    e = Errorf "failed to list objects" err.
Proof.
  revert objs; induction pages as [|[err|cs] pages IH]; intros objs; simpl.
  - split; [done|]. intros (contents & err & rest & H & _).
    by destruct contents.
  - split.
    + intros [= <-]. by exists [], err, pages.
    + intros (contents & err' & rest & H & ->).
      destruct contents; simpl in H; [|done]. by injection H as -> _.
  - rewrite IH. split.
    + intros (contents & err & rest & -> & ->). by exists (cs :: contents), err, rest.
    + intros (contents & err & rest & H & ->).
      destruct contents as [|cs' contents]; simpl in H; [done|].
      injection H as -> ->. by exists contents, err, rest.
Qed.

Lemma walkFn_cases fs root filter objects c :
  (unreadable fs root filter c /\ exists e, walkFn fs root filter objects c = inl e) \/
  (~ unreadable fs root filter c /\
   walkFn fs root filter objects c =
     inr (match walked fs root filter c with
          | Some e => <[e.1 := e.2]> objects
          | None => objects
          end)).
Proof.
  unfold unreadable, walkFn, walked.
  destruct (werr c) as [e|]; [left; split; [left|]; by eexists|].
  destruct (IsDir (wd c)).
  { right. split; [|done]. intros [[? ?]|[? _]]; done. }
  destruct (Rel fs root (wpath c)) as [e|rp].
  { left. split; [|by eexists]. right. split; [done|]. left. by eexists. }
  destruct (rejected filter rp) eqn:Er.
  { right. split; [|done].
    intros [[? ?]|[_ [[? ?]|(rp' & e & [= <-] & ? & _)]]]; congruence. }
  destruct (Info (wd c)) as [e|info].
  { left. split; [|by eexists]. right. split; [done|]. right. by exists rp, e. }
  right. split; [|done].
  intros [[? ?]|[_ [[? ?]|(rp' & e & _ & _ & ?)]]]; congruence.
Qed.

(** The walk fails only on a call on which the callback fails. *)
Lemma WalkDir_inl fs root filter calls objects e :
  WalkDir fs root filter calls objects = inl e ->
  Exists (unreadable fs root filter) calls.
Proof.
  revert objects; induction calls as [|c calls IH]; intros objects; simpl; [done|].
  destruct (walkFn_cases fs root filter objects c) as [[Hu _]|[_ ->]].
  - intros _. by apply Exists_cons_hd.
  - intros H. apply Exists_cons_tl. by eapply IH.
Qed.

(** C7, as the code has it.  The walk fails, with no snapshot, exactly
    when the callback fails on one of its calls: the walk reports an error
    for the entry, the relative path of a file cannot be computed, or the
    metadata of a file that passes the filter cannot be read.  A file the
    filter rejects is left before its metadata is read: the callback
    returns nil for it whatever [Info()] would say.  The listing fails, with
    no snapshot, exactly when one of its pages fails; an object is never an
    error: one without a key, or whose key does not start with a non-empty
    prefix, is skipped, and the size and time of an entry are those of its
    object, zero when the object has none.  When either enumeration of a
    [Sync] fails, [Sync] returns that enumerator's error and no executor
    has been invoked. *)
Theorem enumeration_errors_abort (fs : FileSystem) (s : Syncer) :
  (forall root filter,
     (exists e, WalkLocal fs root filter = inl e) <->
     Exists (unreadable fs root filter) (WalkDirCalls fs root)) /\
  (forall root filter objects c relPath,
     werr c = None -> Rel fs root (wpath c) = inr relPath ->
     rejected filter relPath = true ->
     ~ unreadable fs root filter c /\ walkFn fs root filter objects c = inr objects) /\
  (forall client bucket prefix filter,
     (exists e, ListS3Objects client bucket prefix filter = inl e) <->
     (exists err, inl err ∈ ListObjectsV2 client bucket prefix)) /\
  (forall prefix filter objs obj,
     objKey obj = None \/
     (prefix <> "" /\ HasPrefix (ToString (objKey obj)) prefix = false) ->
     listObject prefix filter objs obj = objs) /\
  (forall client bucket prefix filter objs p info,
     ListS3Objects client bucket prefix filter = inr objs ->
     objs !! p = Some info ->
     exists contents obj,
       inr contents ∈ ListObjectsV2 client bucket prefix /\ obj ∈ contents /\
       Key info = default "" (objKey obj) /\
       Size info = default 0 (objSize obj) /\
       ModTime info = default zeroTime (objLastModified obj)) /\
  (forall src dst e ran r,
     HasPrefix src "s3://" = true -> HasPrefix dst "s3://" = false ->
     ListS3Objects (client s) (parseS3URI src).1 (parseS3URI src).2 (filter_ s) = inl e \/
     ((exists objs, ListS3Objects (client s) (parseS3URI src).1 (parseS3URI src).2
                      (filter_ s) = inr objs) /\
      WalkLocal fs dst (filter_ s) = inl e) ->
     SyncReturns fs s src dst ran r -> ran = [] /\ r = Some e) /\
  (forall src dst e ran r,
     HasPrefix src "s3://" = false -> HasPrefix dst "s3://" = true ->
     WalkLocal fs src (filter_ s) = inl e \/
     ((exists objs, WalkLocal fs src (filter_ s) = inr objs) /\
      ListS3Objects (client s) (parseS3URI dst).1 (parseS3URI dst).2 (filter_ s) = inl e) ->
     SyncReturns fs s src dst ran r -> ran = [] /\ r = Some e).
Proof.
  split; [|split; [|split; [|split; [|split; [|split]]]]].
  - intros root filter. unfold WalkLocal. split.
    + intros [e He].
      destruct (WalkDir fs root filter (WalkDirCalls fs root) ∅) as [e'|] eqn:E; [|done].
      by eapply WalkDir_inl.
    + intros H. destruct (WalkDir_unreadable fs root filter _ ∅ H) as [e ->]. by eexists.
  - intros root filter objects c rp Hw Hr Hf. split.
    + intros [[e He]|[_ [[e He]|(rp' & e & Hr' & Hf' & _)]]]; congruence.
    + unfold walkFn. rewrite Hw. destruct (IsDir (wd c)); [done|]. by rewrite Hr, Hf.
  - intros cl bucket prefix filter. unfold ListS3Objects. split.
    + intros [e He]. apply listPages_inl_iff in He as (contents & err & rest & -> & _).
      exists err. apply elem_of_app. right. by left.
    + intros [err H]. by eapply listPages_error.
  - intros prefix filter objs obj H. unfold listObject, relPathOf.
    destruct H as [->|[Hne ->]]; simpl.
    + destruct (String.eqb_spec prefix ""); simpl; [done|].
      destruct prefix; [done|]. done.
    + by destruct (String.eqb_spec prefix "").
  - intros cl bucket prefix filter objs p info H Hp.
    destruct (listPages_lookup _ _ _ _ _ _ _ H Hp) as [H0|(cs & o & Hcs & Ho & Hl)].
    { by rewrite lookup_empty in H0. }
    exists cs, o. split; [done|]. split; [done|].
    unfold listed in Hl. destruct (relPathOf _ _) as [rp|]; [|done].
    destruct (String.eqb rp ""); [done|]. destruct (rejected filter rp); [done|].
    by injection Hl as _ <-.
  - intros src dst e ran r Hs Hd He.
    assert (exists evs, Sync fs s src dst = (evs, inl e)) as [evs Hsync].
    { rewrite (Sync_S3ToLocal _ _ _ _ Hs Hd). unfold syncS3ToLocal.
      destruct (parseS3URI src) as [bucket prefix]. simpl in He.
      destruct He as [->|[[objs ->] Hw]]; [by eexists|].
      rewrite Hw. by eexists. }
    by eapply SyncReturns_early_inv.
  - intros src dst e ran r Hs Hd He.
    assert (exists evs, Sync fs s src dst = (evs, inl e)) as [evs Hsync].
    { rewrite (Sync_LocalToS3 _ _ _ _ Hs Hd). unfold syncLocalToS3.
      destruct (parseS3URI dst) as [bucket prefix]. simpl in He.
      destruct He as [->|[[objs ->] Hl]]; [by eexists|].
      rewrite Hl. by eexists. }
    by eapply SyncReturns_early_inv.
Qed.

Lemma enumeration_errors_abort_witness :
  (exists e, WalkLocal failingFS "/data" (Some scenarioFilter) = inl e) /\
  (exists e, ListS3Objects failingClient "bucket" "" (Some scenarioFilter) = inl e) /\
  (forall ran r,
     SyncReturns failingFS (scenarioSyncer scenarioClient true 4) "s3://bucket/data" "/data" ran r ->
     ran = [] /\
     r = Some (Errorf "failed to walk local directory" (ErrIO "permission denied"))) /\
  (forall ran r,
     SyncReturns scenarioFS (scenarioSyncer failingClient true 4) "/data" "s3://bucket" ran r ->
     ran = [] /\ r = Some (Errorf "failed to list objects" (ErrIO "access denied"))).
Proof.
  pose proof (enumeration_errors_abort failingFS (scenarioSyncer scenarioClient true 4))
    as (Hw & _ & Hl & _ & _ & Hs & _).
  pose proof (enumeration_errors_abort scenarioFS (scenarioSyncer failingClient true 4))
    as (_ & _ & _ & _ & _ & _ & Hu).
  split; [|split; [|split]].
  - apply (proj2 (Hw "/data" (Some scenarioFilter))). unfold unreadable. simpl.
    apply Exists_cons_tl, Exists_cons_tl, Exists_cons_hd. left. by eexists.
  - apply (proj2 (Hl failingClient "bucket" "" (Some scenarioFilter))).
    exists (ErrIO "access denied").
    simpl. apply elem_of_cons; right. apply elem_of_cons; by left.
  - intros ran r. apply Hs; [reflexivity|reflexivity|].
    right. split; [eexists|]; reflexivity.
  - intros ran r. apply Hu; [reflexivity|reflexivity|].
    right. split; [eexists|]; reflexivity.
Defined.

(** C7 as stated fails.  The metadata of the sentinel of a volume cannot
    be read, yet the walk returns a snapshot, because the filter rejects
    the sentinel, and the restore goes on to [executeSync]; a listing with
    an object without key and an object without size and time returns a
    snapshot too, without the first and with zeros for the second. *)
Lemma enumeration_errors_abort_counterexample :
  (exists c objs evs call,
     c ∈ WalkDirCalls lockedSentinelFS "/data" /\
     werr c = None /\ IsDir (wd c) = false /\
     Info (wd c) = inl (ErrIO "permission denied") /\
     WalkLocal lockedSentinelFS "/data" (Some scenarioFilter) = inr objs /\
     Sync lockedSentinelFS (scenarioSyncer scenarioClient false 1)
       "s3://bucket/data" "/data" = (evs, inr call)) /\
  (exists obj objs,
     [inr [obj; {| objKey := Some "data/a.txt"; objSize := None;
                   objLastModified := None |}]]
       = ListObjectsV2 malformedClient "bucket" "data" /\
     objKey obj = None /\
     ListS3Objects malformedClient "bucket" "data" None = inr objs /\
     objs = {[ "a.txt" := objectInfo "data/a.txt" 0 zeroTime ]}).
Proof.
  split.
  - eexists {| wpath := "/data/.s3sync_done";
               wd := {| IsDir := false; Info := inl (ErrIO "permission denied") |};
               werr := None |}, _, _, _.
    split; [|split; [done|split; [done|split; [done|split]]]].
    + simpl. apply elem_of_cons; right. apply elem_of_cons; right.
      apply elem_of_cons; by left.
    + reflexivity.
    + reflexivity.
  - eexists _, _. split; [reflexivity|]. split; [reflexivity|].
    split; [reflexivity|]. by vm_compute.
Defined.

(** ** Runs of [executeSync] *)

Ltac unfold_state :=
  unfold setWorker, send, offer, setCaller, setCtx, setJobs, setClosed, setErrChan,
    setWorkers, setProd, setSubmitted, setStarted, setFailures in *; simpl in *.

Ltac case_cancel :=
  unfold cancelWith in *;
  repeat match goal with
         | |- context [match ctxErr ?st with _ => _ end] =>
             let E := fresh "Ectx" in destruct (ctxErr st) eqn:E
         end;
  unfold_state.

Ltac case_offer :=
  unfold offer in *;
  repeat match goal with
         | |- context [decide (?a < ?b)%nat] => destruct (decide (a < b)%nat)
         end;
  unfold_state.

Section Runs.
Variable s : Syncer.
Variable c : executeCall.

(** Induction over the states of a call. *)
Lemma reachable_ind (P : state -> Prop) :
  P (init s) ->
  (forall st st', reachable s c st -> P st -> step s c st st' -> P st') ->
  forall st, reachable s c st -> P st.
Proof.
  intros H0 Hstep. unfold reachable.
  apply rtc_ind_r; [done|]. intros y z Hy Hyz IH. eapply Hstep; eauto.
Qed.

Lemma reachable_step st st' : reachable s c st -> step s c st st' -> reachable s c st'.
Proof. intros Hr Hs. eapply rtc_r; eauto. Qed.

Lemma reachable_rtc st st' : reachable s c st -> rtc (step s c) st st' -> reachable s c st'.
Proof. intros Hr Hs. unfold reachable. etrans; eauto. Qed.

(** *** The pool *)

Lemma step_workers_length st st' :
  step s c st st' -> length (workers st') = length (workers st).
Proof.
  destruct 1; case_cancel; case_offer; rewrite ?length_insert; done.
Qed.

Lemma reachable_workers_length st :
  reachable s c st -> length (workers st) = Z.to_nat (concurrency s).
Proof.
  revert st. apply reachable_ind.
  - simpl. by rewrite length_replicate.
  - intros st st' _ IH Hs. by rewrite (step_workers_length _ _ Hs).
Qed.

Lemma inFlight_le_workers st : (inFlight st <= length (workers st))%nat.
Proof. unfold inFlight. apply List.filter_length_le. Qed.

(** A worker that has returned stays so. *)
Lemma step_exited st st' i :
  step s c st st' -> workers st !! i = Some WExited -> workers st' !! i = Some WExited.
Proof.
  intros Hs Hi.
  destruct Hs; case_cancel; case_offer; try done;
    match goal with
    | H : workers ?st !! ?k = Some _ |- <[?k := _]> _ !! i = _ =>
        destruct (decide (k = i)) as [->|];
        [congruence|by rewrite list_lookup_insert_ne]
    end.
Qed.

Lemma rtc_exited st st' i :
  rtc (step s c) st st' -> workers st !! i = Some WExited -> workers st' !! i = Some WExited.
Proof. induction 1; eauto using step_exited. Qed.

(** *** The channels *)

Lemma step_fifo st st' :
  step s c st st' -> submitted st = started st ++ jobs st ->
  submitted st' = started st' ++ jobs st'.
Proof.
  destruct 1; case_cancel; case_offer; intros IH; try done.
  - rewrite IH. match goal with H : jobs _ = _ |- _ => rewrite H end.
    by rewrite <- app_assoc.
  - rewrite IH. by rewrite app_assoc.
  - rewrite IH. by rewrite app_assoc.
Qed.

Lemma reachable_fifo st :
  reachable s c st -> submitted st = started st ++ jobs st.
Proof.
  revert st. apply reachable_ind; [done|]. eauto using step_fifo.
Qed.

Lemma take_snoc_full {A} (l : list A) (x : A) (n : nat) :
  (n <= length (take n l))%nat -> take n (l ++ [x]) = take n l.
Proof.
  rewrite length_take. intros H. rewrite take_app_le by lia. done.
Qed.

Lemma take_snoc_room {A} (l : list A) (x : A) (n : nat) :
  (length (take n l) < n)%nat -> take n (l ++ [x]) = take n l ++ [x].
Proof.
  rewrite length_take. intros H.
  rewrite !take_ge by (rewrite ?length_app; simpl; lia). done.
Qed.

Lemma step_errChan st st' :
  step s c st st' -> errChan st = take errChanCap (failures st) ->
  errChan st' = take errChanCap (failures st').
Proof.
  destruct 1; case_cancel; case_offer; intros IH; try done.
  - rewrite IH. rewrite take_snoc_room; [done|]. by rewrite <- IH.
  - rewrite IH. rewrite take_snoc_full; [done|]. rewrite <- IH. lia.
Qed.

Lemma reachable_errChan st :
  reachable s c st -> errChan st = take errChanCap (failures st).
Proof.
  revert st. apply reachable_ind; [done|]. eauto using step_errChan.
Qed.

(** The first error of the channel is the first error any executor
    returned. *)
Lemma reachable_first_error st :
  reachable s c st -> head (errChan st) = head (failures st).
Proof.
  intros Hr. rewrite (reachable_errChan _ Hr). by destruct (failures st).
Qed.
End Runs.

Lemma copyJobs_cons c p srcInfo rest :
  copyJobs c ((p, srcInfo) :: rest) =
    if shouldCopy srcInfo (dstObjs c !! p) then copyJob c p :: copyJobs c rest
    else copyJobs c rest.
Proof. unfold copyJobs. simpl. by destruct (shouldCopy _ _). Qed.

Lemma deleteJobs_cons c p dstInfo rest :
  deleteJobs c ((p, dstInfo) :: rest) =
    if shouldDelete (srcObjs c !! p) then deleteJob c p :: deleteJobs c rest
    else deleteJobs c rest.
Proof. unfold deleteJobs. simpl. by destruct (shouldDelete _). Qed.

Lemma copyJobs_paths c order : copyJob c <$> (path <$> copyJobs c order) = copyJobs c order.
Proof.
  induction order as [|[p i] order IH]; [done|].
  rewrite copyJobs_cons. destruct (shouldCopy _ _); [|done].
  rewrite !fmap_cons. f_equal. exact IH.
Qed.

Lemma deleteJobs_paths c order :
  deleteJob c <$> (path <$> deleteJobs c order) = deleteJobs c order.
Proof.
  induction order as [|[p i] order IH]; [done|].
  rewrite deleteJobs_cons. destruct (shouldDelete _); [|done].
  rewrite !fmap_cons. f_equal. exact IH.
Qed.

Lemma plan_jobs s c :
  plan s c = copyJobs c (map_to_list (srcObjs c)) ++
             (if deleteDestination s then deleteJobs c (map_to_list (dstObjs c)) else []).
Proof.
  unfold plan, copySet, deleteSet. rewrite copyJobs_paths.
  destruct (deleteDestination s); [|done]. by rewrite deleteJobs_paths.
Qed.

Lemma copyJobs_perm c order order' :
  order ≡ₚ order' -> copyJobs c order ≡ₚ copyJobs c order'.
Proof. intros H. unfold copyJobs. by rewrite H. Qed.

Lemma deleteJobs_perm c order order' :
  order ≡ₚ order' -> deleteJobs c order ≡ₚ deleteJobs c order'.
Proof. intros H. unfold deleteJobs. by rewrite H. Qed.

#[global] Arguments copyJobs : simpl never.
#[global] Arguments deleteJobs : simpl never.
#[global] Arguments plan : simpl never.

Section Plan.
Variable s : Syncer.
Variable c : executeCall.

Lemma step_ctx_None st st' :
  step s c st st' -> ctxErr st' = None -> ctxErr st = None.
Proof. destruct 1; case_cancel; case_offer; congruence. Qed.

Lemma step_ctx_done st st' :
  step s c st st' -> ctxErr st <> None -> ctxErr st' = ctxErr st.
Proof. destruct 1; case_cancel; case_offer; congruence. Qed.

Lemma rtc_ctx_done st st' :
  rtc (step s c) st st' -> ctxErr st <> None -> ctxErr st' = ctxErr st.
Proof.
  induction 1 as [|x y z Hxy Hyz IH]; [done|]. intros Hx.
  rewrite <- (step_ctx_done _ _ Hxy Hx). apply IH.
  by rewrite (step_ctx_done _ _ Hxy Hx).
Qed.

(** Whatever happens, what was submitted is part of the plan. *)
Lemma step_plan_sub st st' :
  step s c st st' -> planInv s c submseteq st -> planInv s c submseteq st'.
Proof.
  unfold planInv.
  destruct 1 as [ | | | | | | | st order Hp Ho | st Hp | st e rest Hp Hc
                | st p i rest Hp Hc | st j rest Hp Hl | st j rest Hp Hc
                | st Hp Hd | st order Hp Hd Ho | st Hp | st e rest Hp Hc
                | st p i rest Hp Hc | st j rest Hp Hl | st j rest Hp Hc
                | st Hp | st Hp Hw ];
    case_cancel; case_offer; try done; rewrite Hp; simpl; try done.
  - intros H0. rewrite H0. apply Permutation_submseteq. by apply copyJobs_perm.
  - by rewrite app_nil_r.
  - intros H. etrans; [|exact H]. by apply submseteq_inserts_r.
  - rewrite copyJobs_cons. by destruct (shouldCopy _ _).
  - by rewrite <- app_assoc.
  - intros H. etrans; [|exact H]. by apply submseteq_inserts_r.
  - rewrite plan_jobs, Hd. by rewrite app_nil_r.
  - intros H. split; [done|]. apply submseteq_app; [done|].
    apply Permutation_submseteq. by apply deleteJobs_perm.
  - intros [Hd H]. rewrite plan_jobs, Hd. by rewrite app_nil_r in H.
  - intros [Hd H]. rewrite plan_jobs, Hd. etrans; [|exact H].
    by apply submseteq_inserts_r.
  - rewrite deleteJobs_cons. by destruct (shouldDelete _).
  - by rewrite <- app_assoc.
  - intros [Hd H]. rewrite plan_jobs, Hd. etrans; [|exact H].
    by apply submseteq_inserts_r.
Qed.

Lemma reachable_plan_sub st : reachable s c st -> planInv s c submseteq st.
Proof.
  revert st. apply reachable_ind; [done|]. eauto using step_plan_sub.
Qed.

(** While the context is live, nothing of the plan has been left out. *)
Lemma step_plan_exact st st' :
  step s c st st' -> ctxErr st' = None ->
  planInv s c Permutation st -> planInv s c Permutation st'.
Proof.
  unfold planInv.
  destruct 1 as [ | | | | | | | st order Hp Ho | st Hp | st e rest Hp Hc
                | st p i rest Hp Hc | st j rest Hp Hl | st j rest Hp Hc
                | st Hp Hd | st order Hp Hd Ho | st Hp | st e rest Hp Hc
                | st p i rest Hp Hc | st j rest Hp Hl | st j rest Hp Hc
                | st Hp | st Hp Hw ];
    case_cancel; case_offer; try done; rewrite Hp; simpl; intros Hnone; try done.
  - intros H0. rewrite H0. by apply copyJobs_perm.
  - by rewrite app_nil_r.
  - rewrite copyJobs_cons. by destruct (shouldCopy _ _).
  - by rewrite <- app_assoc.
  - rewrite plan_jobs, Hd. by rewrite app_nil_r.
  - intros H. split; [done|]. rewrite H. apply Permutation_app_head.
    by apply deleteJobs_perm.
  - intros [Hd H]. rewrite plan_jobs, Hd. by rewrite app_nil_r in H.
  - rewrite deleteJobs_cons. by destruct (shouldDelete _).
  - by rewrite <- app_assoc.
Qed.

Lemma reachable_plan_exact st :
  reachable s c st -> ctxErr st = None -> planInv s c Permutation st.
Proof.
  revert st.
  apply (reachable_ind s c (fun st => ctxErr st = None -> planInv s c Permutation st));
    [done|].
  intros st st' _ IH Hs Hc. eapply step_plan_exact; eauto using step_ctx_None.
Qed.

(** Every job ever submitted is a job of the plan, at most once. *)
Lemma reachable_submitted_plan st : reachable s c st -> submitted st ⊆+ plan s c.
Proof.
  intros Hr. pose proof (reachable_plan_sub _ Hr) as H. unfold planInv in H.
  rewrite plan_jobs.
  destruct (prod st); try (rewrite plan_jobs in H; exact H).
  - rewrite H. apply submseteq_nil_l.
  - apply submseteq_inserts_r. etrans; [|exact H]. by apply submseteq_inserts_r.
  - apply submseteq_inserts_r. etrans; [|exact H]. by apply submseteq_inserts_r.
  - by apply submseteq_inserts_r.
  - destruct H as [-> H]. etrans; [|exact H]. by apply submseteq_inserts_r.
  - destruct H as [-> H]. etrans; [|exact H]. by apply submseteq_inserts_r.
Qed.
End Plan.

(** ** Schedules are runs *)

Lemma act_step s c a st st' : act s c a st = Some st' -> step s c st st'.
Proof.
  destruct a; simpl.
  - destruct (prod st) eqn:Ep; destruct (callerErr st) eqn:Ec; try done;
      (destruct (decide _) as [Hd|]; [|done]); intros [= <-];
      (apply step_caller_done; [unfold running; by rewrite Ep|done|done]).
  - destruct (workers st !! i) as [[]|] eqn:Ew; try done.
    destruct (ctxErr st) eqn:Ec; [|done]. intros [= <-].
    apply step_worker_done; [done|congruence].
  - destruct (workers st !! i) as [[]|] eqn:Ew; try done.
    destruct (jobs st) eqn:Ej; [done|]. intros [= <-].
    by eapply step_worker_recv.
  - destruct (workers st !! i) as [[]|] eqn:Ew; try done.
    destruct (jobs st) eqn:Ej; [|done].
    destruct (jobsClosed st) eqn:Ecl; [|done]. intros [= <-].
    by apply step_worker_closed.
  - destruct (workers st !! i) as [[]|] eqn:Ew; try done. intros [= <-].
    by eapply step_exec_ok.
  - destruct (workers st !! i) as [[]|] eqn:Ew; try done. intros [= <-].
    by eapply step_exec_err.
  - destruct (workers st !! i) as [[]|] eqn:Ew; try done. intros [= <-].
    by eapply step_worker_cancel.
  - destruct (prod st) eqn:Ep; try done.
    + intros [= <-]. by apply step_copy_range.
    + destruct (deleteDestination s) eqn:Ed; [|done]. intros [= <-].
      by apply step_delete_range.
  - destruct (prod st) as [|[|[p i] rest]| | |[|[p i] rest]| | | |] eqn:Ep; try done.
    + intros [= <-]. by apply step_copy_end.
    + destruct (ctxErr st) eqn:Ec; intros [= <-].
      * eapply step_copy_break; [done|congruence].
      * by apply step_copy_decide.
    + destruct (deleteDestination s) eqn:Ed; [done|]. intros [= <-].
      by apply step_delete_off.
    + intros [= <-]. by apply step_delete_end.
    + destruct (ctxErr st) eqn:Ec; intros [= <-].
      * eapply step_delete_break; [done|congruence].
      * by eapply step_delete_decide.
    + intros [= <-]. by apply step_close.
    + destruct (decide _) as [Hf|]; [|done]. intros [= <-]. by apply step_return.
  - destruct (prod st) eqn:Ep; try done;
      (destruct (decide _) as [Hl|]; [|done]); intros [= <-].
    + by eapply step_copy_send.
    + by eapply step_delete_send.
  - destruct (prod st) eqn:Ep; try done;
      (destruct (ctxErr st) eqn:Ec; [|done]); intros [= <-].
    + eapply step_copy_abort; [done|congruence].
    + eapply step_delete_abort; [done|congruence].
Qed.

Lemma run_rtc s c acts st st' : run s c acts st = Some st' -> rtc (step s c) st st'.
Proof.
  revert st; induction acts as [|a acts IH]; intros st; simpl.
  - by intros [= ->].
  - destruct (act s c a st) as [st1|] eqn:E; [|done].
    intros H. eapply rtc_l; [by eapply act_step|by apply IH].
Qed.

Lemma endsIn_rtc s c acts st P :
  endsIn s c acts st P -> exists st', rtc (step s c) st st' /\ P st'.
Proof.
  unfold endsIn. destruct (run s c acts st) as [st'|] eqn:E; [|done].
  intros H. exists st'. split; [by eapply run_rtc|done].
Qed.

Lemma endsIn_step s c a st P :
  endsIn s c [a] st P -> exists st', step s c st st' /\ P st'.
Proof.
  unfold endsIn. simpl. destruct (act s c a st) as [st'|] eqn:E; [|done].
  intros H. exists st'. split; [by eapply act_step|done].
Qed.

Lemma endsIn_reachable s c acts P :
  endsIn s c acts (init s) P -> exists st, reachable s c st /\ P st.
Proof. apply endsIn_rtc. Qed.

(** ** The plan *)

Lemma shouldCopy_true srcInfo dst :
  shouldCopy srcInfo dst = true <->
  dst = None \/
  exists dstInfo, dst = Some dstInfo /\
    (Size srcInfo <> Size dstInfo \/
     (Size srcInfo = Size dstInfo /\ ModTime dstInfo < ModTime srcInfo)).
Proof.
  unfold shouldCopy. destruct dst as [dstInfo|]; [|by intuition].
  destruct (Z.eqb_spec (Size srcInfo) (Size dstInfo)) as [He|Hne]; simpl.
  - rewrite Z.ltb_lt. split.
    + intros H. right. exists dstInfo. by intuition.
    + intros [|(d & [= <-] & [|[_ ?]])]; done.
  - split; [|done]. intros _. right. exists dstInfo. by intuition.
Qed.

Lemma elem_of_copySet c p :
  p ∈ copySet c <->
  exists srcInfo, srcObjs c !! p = Some srcInfo /\
                  shouldCopy srcInfo (dstObjs c !! p) = true.
Proof.
  unfold copySet, copyJobs. rewrite list_elem_of_fmap. split.
  - intros (j & -> & Hj). apply list_elem_of_omap in Hj as ([q i] & Hin & Hf).
    apply elem_of_map_to_list in Hin.
    destruct (shouldCopy i (dstObjs c !! q)) eqn:E; [|done].
    injection Hf as <-. simpl. by exists i.
  - intros (i & Hi & Hc). exists (copyJob c p). split; [done|].
    apply list_elem_of_omap. exists (p, i). split; [by apply elem_of_map_to_list|].
    by rewrite Hc.
Qed.

Lemma elem_of_deleteSet s c p :
  p ∈ deleteSet s c <->
  deleteDestination s = true /\ is_Some (dstObjs c !! p) /\ srcObjs c !! p = None.
Proof.
  unfold deleteSet, deleteJobs. destruct (deleteDestination s).
  - rewrite list_elem_of_fmap. split.
    + intros (j & -> & Hj). apply list_elem_of_omap in Hj as ([q i] & Hin & Hf).
      apply elem_of_map_to_list in Hin.
      destruct (srcObjs c !! q) eqn:E; [done|]. simpl in Hf.
      injection Hf as <-. simpl. split; [done|]. split; [by eexists|done].
    + intros (_ & [i Hi] & Hs). exists (deleteJob c p). split; [done|].
      apply list_elem_of_omap. exists (p, i). split; [by apply elem_of_map_to_list|].
      by rewrite Hs.
  - split; [by intros ?%elem_of_nil|by intros [? _]].
Qed.

(** C1: a path is in the copy set exactly when the source has it and the
    destination lacks it, or has it with another size, or has it with the
    same size and an older modification time; unequal sizes alone put it
    in the copy set; and a copy loop that ran to its end with the context
    live has submitted the paths of the copy set, each once. *)
Theorem copy_decision (s : Syncer) (c : executeCall) (p : string) :
  (p ∈ copySet c <->
   exists srcInfo, srcObjs c !! p = Some srcInfo /\
     (dstObjs c !! p = None \/
      exists dstInfo, dstObjs c !! p = Some dstInfo /\
        (Size srcInfo <> Size dstInfo \/
         (Size srcInfo = Size dstInfo /\ ModTime dstInfo < ModTime srcInfo)))) /\
  (forall srcInfo dstInfo,
     srcObjs c !! p = Some srcInfo -> dstObjs c !! p = Some dstInfo ->
     Size srcInfo <> Size dstInfo -> p ∈ copySet c) /\
  (forall st, reachable s c st -> prod st = PDeleteCheck -> ctxErr st = None ->
              path <$> submitted st ≡ₚ copySet c).
Proof.
  assert (Hiff : p ∈ copySet c <->
   exists srcInfo, srcObjs c !! p = Some srcInfo /\
     (dstObjs c !! p = None \/
      exists dstInfo, dstObjs c !! p = Some dstInfo /\
        (Size srcInfo <> Size dstInfo \/
         (Size srcInfo = Size dstInfo /\ ModTime dstInfo < ModTime srcInfo)))).
  { rewrite elem_of_copySet. split; intros (i & Hi & H); exists i; (split; [done|]);
      by apply shouldCopy_true. }
  split; [done|]. split.
  - intros i d Hi Hd Hne. apply Hiff. exists i. split; [done|].
    right. exists d. by intuition.
  - intros st Hr Hp Hc. pose proof (reachable_plan_exact _ _ _ Hr Hc) as H.
    unfold planInv in H. rewrite Hp in H. unfold copySet. by rewrite H.
Qed.

Lemma copy_decision_witness :
  "sub/b.txt" ∈ copySet scenarioCall /\ "base/c.txt" ∈ copySet scenarioCall /\
  ~ "a.txt" ∈ copySet scenarioCall.
Proof.
  split; [|split].
  - apply (copy_decision (scenarioSyncer scenarioClient true 4) scenarioCall "sub/b.txt").
    eexists. split; [reflexivity|]. by left.
  - apply (copy_decision (scenarioSyncer scenarioClient true 4) scenarioCall "base/c.txt").
    eexists. split; [reflexivity|]. by left.
  - intros H.
    apply (copy_decision (scenarioSyncer scenarioClient true 4) scenarioCall "a.txt") in H
      as (i & Hi & [Hd|(d & Hd & Hc)]).
    + vm_compute in Hd. discriminate.
    + vm_compute in Hi. vm_compute in Hd. injection Hi as <-. injection Hd as <-.
      simpl in Hc. lia.
Defined.

Lemma plan_paths s c : path <$> plan s c = copySet c ++ deleteSet s c.
Proof.
  rewrite plan_jobs, fmap_app. unfold copySet, deleteSet.
  by destruct (deleteDestination s).
Qed.

(** C2: with deletion disabled the delete set is empty and every job ever
    submitted is a copy job of the copy set; with deletion enabled a path
    is in the delete set exactly when the destination has it and the source
    does not, whatever the sizes and times; and a producer that reached
    [close(jobs)] with the context live has submitted the paths of the copy
    set and of the delete set, each once. *)
Theorem delete_decision (s : Syncer) (c : executeCall) :
  (deleteDestination s = false ->
     deleteSet s c = [] /\
     forall st, reachable s c st -> submitted st ⊆+ copyJob c <$> copySet c) /\
  (deleteDestination s = true ->
     forall p, p ∈ deleteSet s c <->
               is_Some (dstObjs c !! p) /\ srcObjs c !! p = None) /\
  (forall st, reachable s c st -> prod st = PClose -> ctxErr st = None ->
              path <$> submitted st ≡ₚ copySet c ++ deleteSet s c).
Proof.
  split; [|split].
  - intros Hd. split; [unfold deleteSet; by rewrite Hd|].
    intros st Hr. pose proof (reachable_submitted_plan _ _ _ Hr) as H.
    unfold plan in H. unfold deleteSet in H. rewrite Hd in H.
    by rewrite app_nil_r in H.
  - intros Hd p. rewrite elem_of_deleteSet. by intuition.
  - intros st Hr Hp Hc. pose proof (reachable_plan_exact _ _ _ Hr Hc) as H.
    unfold planInv in H. rewrite Hp in H. by rewrite H, plan_paths.
Qed.

Lemma delete_decision_witness :
  deleteSet (scenarioSyncer scenarioClient false 4) scenarioCall = [] /\
  "old.txt" ∈ deleteSet (scenarioSyncer scenarioClient true 4) scenarioCall /\
  exists st, reachable (scenarioSyncer scenarioClient true 1) scenarioCall st /\
             prod st = PReturned None /\
             started st = [copyJob scenarioCall "sub/b.txt"; copyJob scenarioCall "base/c.txt";
                           deleteJob scenarioCall "old.txt"].
Proof.
  split; [|split].
  - apply (delete_decision (scenarioSyncer scenarioClient false 4) scenarioCall).
    reflexivity.
  - apply (delete_decision (scenarioSyncer scenarioClient true 4) scenarioCall);
      [reflexivity|].
    split; [eexists|]; reflexivity.
  - apply (endsIn_reachable (scenarioSyncer scenarioClient true 1) scenarioCall okSchedule).
    by vm_compute.
Defined.

(** C8: when a run has left every entry of its copy set at the destination
    with the size of the source and a modification time not earlier than
    the source's, has removed the entries of its delete set, and nothing
    else has changed on either side, the plan of the next run is empty and
    that run submits and starts no job. *)
Theorem second_run_is_empty (s : Syncer) (src dst dst' : gmap string ObjectInfo)
    (copyF deleteF : executor) :
  let first := {| srcObjs := src; dstObjs := dst; copyFunc := copyF; deleteFunc := deleteF |} in
  let second := {| srcObjs := src; dstObjs := dst'; copyFunc := copyF; deleteFunc := deleteF |} in
  (forall p, p ∈ copySet first ->
     exists srcInfo dstInfo, src !! p = Some srcInfo /\ dst' !! p = Some dstInfo /\
       Size dstInfo = Size srcInfo /\ ModTime srcInfo <= ModTime dstInfo) ->
  (forall p, p ∈ deleteSet s first -> dst' !! p = None) ->
  (forall p, ~ p ∈ copySet first -> ~ p ∈ deleteSet s first -> dst' !! p = dst !! p) ->
  copySet second = [] /\ deleteSet s second = [] /\
  forall st, reachable s second st -> submitted st = [] /\ started st = [].
Proof.
  intros first second Hcopy Hdel Hsame.
  assert (Hc : copySet second = []).
  { apply elem_of_nil_inv. intros p Hp.
    apply elem_of_copySet in Hp as (i & Hi & Hs). simpl in Hi, Hs.
    destruct (decide (p ∈ copySet first)) as [Hin|Hnin].
    - destruct (Hcopy p Hin) as (i' & d & Hi' & Hd & Hsz & Hmt).
      rewrite Hi in Hi'. injection Hi' as <-. rewrite Hd in Hs.
      apply shouldCopy_true in Hs as [|(d' & [= <-] & [|[_ ?]])]; [done|done|lia].
    - assert (Hnd : ~ p ∈ deleteSet s first).
      { rewrite elem_of_deleteSet. simpl. intros (_ & _ & ?). congruence. }
      rewrite (Hsame p Hnin Hnd) in Hs. apply Hnin.
      apply elem_of_copySet. by exists i. }
  assert (Hd : deleteSet s second = []).
  { apply elem_of_nil_inv. intros p Hp.
    apply elem_of_deleteSet in Hp as (He & Hsome & Hnone). simpl in Hsome, Hnone.
    assert (Hnin : ~ p ∈ copySet first).
    { rewrite elem_of_copySet. simpl. intros (i & ? & _). congruence. }
    destruct (decide (p ∈ deleteSet s first)) as [Hin|Hnd].
    - rewrite (Hdel p Hin) in Hsome. by destruct Hsome.
    - apply Hnd. apply elem_of_deleteSet. simpl.
      by rewrite <- (Hsame p Hnin Hnd). }
  split; [done|]. split; [done|].
  intros st Hr. pose proof (reachable_submitted_plan _ _ _ Hr) as H.
  unfold plan in H. rewrite Hc, Hd in H. simpl in H.
  apply submseteq_nil_r in H. split; [done|].
  pose proof (reachable_fifo _ _ _ Hr) as Hf. rewrite H in Hf.
  symmetry in Hf. by apply app_eq_nil in Hf as [? _].
Qed.

Lemma second_run_is_empty_witness :
  copySet scenarioCallAfter = [] /\
  deleteSet (scenarioSyncer scenarioClient true 4) scenarioCallAfter = [] /\
  forall st, reachable (scenarioSyncer scenarioClient true 4) scenarioCallAfter st ->
             submitted st = [] /\ started st = [].
Proof.
  apply (second_run_is_empty (scenarioSyncer scenarioClient true 4)
           (srcObjs scenarioCall) (dstObjs scenarioCall) (dstObjs scenarioCallAfter)
           (copyFunc scenarioCall) (deleteFunc scenarioCall)).
  - intros p Hp. vm_compute in Hp.
    apply elem_of_cons in Hp as [->|Hp]; [|apply elem_of_cons in Hp as [->|Hp]].
    + eexists _, _. split; [reflexivity|]. split; [reflexivity|]. simpl. lia.
    + eexists _, _. split; [reflexivity|]. split; [reflexivity|]. simpl. lia.
    + by apply elem_of_nil in Hp.
  - intros p Hp. vm_compute in Hp.
    apply elem_of_cons in Hp as [->|Hp]; [reflexivity|by apply elem_of_nil in Hp].
  - intros p Hc Hd.
    destruct (decide (p = "a.txt")) as [->|Ha]; [reflexivity|].
    destruct (decide (p = "sub/b.txt")) as [->|Hb].
    { exfalso. apply Hc, elem_of_copySet. eexists. split; reflexivity. }
    destruct (decide (p = "base/c.txt")) as [->|Hcc].
    { exfalso. apply Hc, elem_of_copySet. eexists. split; reflexivity. }
    destruct (decide (p = "old.txt")) as [->|Ho].
    { exfalso. apply Hd, elem_of_deleteSet. split; [reflexivity|].
      split; [eexists|]; reflexivity. }
    simpl. rewrite !lookup_insert_ne by done. done.
Defined.

(** ** Cancellation and the return value *)

Lemma elem_of_insert_other {A} (l : list A) (i : nat) (x y w : A) :
  x ∈ l -> l !! i = Some y -> y <> x -> x ∈ <[i := w]> l.
Proof.
  intros Hx Hi Hne. apply list_elem_of_lookup in Hx as [k Hk].
  apply list_elem_of_lookup. exists k.
  rewrite list_lookup_insert_ne; [done|]. intros ->. congruence.
Qed.

Section Cancellation.
Variable s : Syncer.
Variable c : executeCall.

(** The derived context is done as soon as the caller's is; its error is
    [Canceled], or the caller's [DeadlineExceeded]. *)
Lemma step_ctx_caller st st' :
  step s c st st' ->
  (callerErr st <> None -> ctxErr st <> None) ->
  (callerErr st' <> None -> ctxErr st' <> None).
Proof. destruct 1; case_cancel; case_offer; try done; congruence. Qed.

Lemma step_ctx_error st st' :
  step s c st st' ->
  (forall e, ctxErr st = Some e ->
     e = Canceled \/ (e = DeadlineExceeded /\ callerErr st = Some DeadlineExceeded)) ->
  (forall e, ctxErr st' = Some e ->
     e = Canceled \/ (e = DeadlineExceeded /\ callerErr st' = Some DeadlineExceeded)).
Proof.
  destruct 1 as [st err Hrun Hcaller Herr| | | | | | | | | | | | | | | | | | | | | ];
    case_cancel; case_offer; try done.
  - intros IH e0 He0. rewrite Ectx in He0.
    destruct (IH _ He0) as [|[_ ?]]; [by left|congruence].
  - intros _ e0 [= <-]. destruct Herr as [->| ->]; [by left|by right].
  - intros IH e0 He0. rewrite Ectx in He0. exact (IH _ He0).
  - intros _ e0 [= <-]. by left.
Qed.

(** After a failure the context is done, or the worker that failed is
    about to cancel it. *)
Lemma step_failed_cancels st st' :
  step s c st st' ->
  (failures st <> [] -> ctxErr st <> None \/ WFailed ∈ workers st) ->
  (failures st' <> [] -> ctxErr st' <> None \/ WFailed ∈ workers st').
Proof.
  destruct 1 as [st err Hrun Hcaller Herr
                | st i Hw Hc | st i j q Hw Hj | st i Hw Hj Hcl | st i j Hw
                | st i j err Hw | st i Hw
                | | | | | | | | | | | | | | | ];
    case_cancel; case_offer; try done.
  all: try (intros _ _; by left).
  all: try (intros _ _; right; apply list_elem_of_insert; by eapply lookup_lt_Some).
  all: intros IH Hf.
  all: try (left; congruence).
  all: destruct (IH Hf) as [?|Hin]; [by left|].
  all: right; eapply elem_of_insert_other; [exact Hin|exact Hw|done].
Qed.

Lemma reachable_ctxInv st : reachable s c st -> ctxInv st.
Proof.
  revert st. apply reachable_ind.
  - unfold ctxInv. simpl. by intuition.
  - intros st st' _ (I1 & I2 & I3) Hs. unfold ctxInv.
    split; [by eapply step_ctx_caller|].
    split; [by eapply step_ctx_error|].
    by eapply step_failed_cancels.
Qed.

(** [executeSync] has returned: its value is the one computed from the
    final context and channel, and every worker has exited. *)
Lemma step_returned st st' :
  step s c st st' ->
  (forall r, prod st = PReturned r ->
             r = returnValue st /\ Forall (eq WExited) (workers st)) ->
  (forall r, prod st' = PReturned r ->
             r = returnValue st' /\ Forall (eq WExited) (workers st')).
Proof.
  destruct 1 as [st err Hrun Hcaller Herr
                | st i Hw Hc | st i j q Hw Hj | st i Hw Hj Hcl | st i j Hw
                | st i j err Hw | st i Hw
                | | | | st p i rest Hp Hc | | | | | | | st p i rest Hp Hc | | | | ];
    try (case_cancel; case_offer; intros IH r Hr; exfalso;
         destruct (IH r Hr) as [_ Hall];
         (eapply Forall_lookup_1 in Hall; [|exact Hw]); discriminate);
    unfold_state; try done.
  - intros _ r Hr. unfold running in Hrun. exfalso.
    revert Hr Hrun. case_cancel; intros ->; done.
  - intros _ r Hr. by destruct (shouldCopy i (dstObjs c !! p)).
  - intros _ r Hr. by destruct (shouldDelete (srcObjs c !! p)).
  - intros _ r [= <-]. done.
Qed.

Lemma reachable_returned st r :
  reachable s c st -> prod st = PReturned r ->
  r = returnValue st /\ Forall (eq WExited) (workers st).
Proof.
  intros Hr. revert r. revert st Hr.
  apply (reachable_ind s c (fun st => forall r, prod st = PReturned r ->
           r = returnValue st /\ Forall (eq WExited) (workers st))); [done|].
  intros st st' _ IH Hs. by eapply step_returned.
Qed.

(** Once the context is done the producer sends at most the job it is
    already offering. *)
Lemma step_late_sends st st' :
  step s c st st' -> ctxErr st <> None ->
  (length (submitted st') + lateSends (prod st') <=
   length (submitted st) + lateSends (prod st))%nat.
Proof.
  destruct 1 as [ | | | | | | | st order Hp Ho | st Hp | st e rest Hp Hc
                | st p i rest Hp Hc | st j rest Hp Hl | st j rest Hp Hc
                | st Hp Hd | st order Hp Hd Ho | st Hp | st e rest Hp Hc
                | st p i rest Hp Hc | st j rest Hp Hl | st j rest Hp Hc
                | st Hp | st Hp Hw ];
    case_cancel; case_offer; try done; try lia; rewrite ?Hp; simpl;
    rewrite ?length_app; simpl; lia.
Qed.

Lemma rtc_late_sends st st' :
  rtc (step s c) st st' -> ctxErr st <> None ->
  (length (submitted st') + lateSends (prod st') <=
   length (submitted st) + lateSends (prod st))%nat.
Proof.
  induction 1 as [|x y z Hxy Hyz IH]; [lia|]. intros Hx.
  pose proof (step_late_sends _ _ Hxy Hx).
  pose proof (step_ctx_done _ _ _ _ Hxy Hx) as Hy.
  assert (ctxErr y <> None) by congruence. specialize (IH H0). lia.
Qed.
End Cancellation.

(** ** A run in which nothing fails *)

Section Success.
Variable s : Syncer.
Variable c : executeCall.
Variable k : nat.
Hypothesis k_pos : (0 < k)%nat.

(** One job goes through the queue and worker 0. *)
Lemma idle_one_job p j ran :
  rtc (step s c) (setProd p (send j (idle (replicate k WSelect) p false ran)))
    (idle (replicate k WSelect) p false (ran ++ [j])).
Proof.
  eapply rtc_l.
  { eapply step_worker_recv with (i := 0%nat); [|reflexivity].
    simpl. apply lookup_replicate_2. lia. }
  eapply rtc_l.
  { eapply step_exec_ok with (i := 0%nat). simpl.
    apply list_lookup_insert_eq. rewrite length_replicate. lia. }
  unfold idle, setWorker, setWorkers, setStarted, setJobs, setProd, send,
    setSubmitted. simpl.
  rewrite list_insert_insert_eq.
  rewrite list_insert_id by (apply lookup_replicate_2; lia).
  apply rtc_refl.
Qed.

Lemma idle_copy_loop rest ran :
  rtc (step s c) (idle (replicate k WSelect) (PCopyRange rest) false ran)
    (idle (replicate k WSelect) PDeleteCheck false (ran ++ copyJobs c rest)).
Proof.
  revert ran; induction rest as [|[p i] rest IH]; intros ran.
  - eapply rtc_l; [by apply step_copy_end|].
    change (copyJobs c []) with (@nil job). rewrite app_nil_r. apply rtc_refl.
  - eapply rtc_l; [by eapply step_copy_decide|].
    rewrite copyJobs_cons. destruct (shouldCopy i (dstObjs c !! p)).
    + eapply rtc_l.
      { eapply step_copy_send; [reflexivity|]. simpl. unfold jobsCap. lia. }
      etrans; [apply (idle_one_job (PCopyRange rest))|].
      etrans; [apply IH|]. rewrite <- app_assoc. apply rtc_refl.
    + apply IH.
Qed.

Lemma idle_delete_loop rest ran :
  rtc (step s c) (idle (replicate k WSelect) (PDeleteRange rest) false ran)
    (idle (replicate k WSelect) PClose false (ran ++ deleteJobs c rest)).
Proof.
  revert ran; induction rest as [|[p i] rest IH]; intros ran.
  - eapply rtc_l; [by apply step_delete_end|].
    change (deleteJobs c []) with (@nil job). rewrite app_nil_r. apply rtc_refl.
  - eapply rtc_l; [by eapply step_delete_decide|].
    rewrite deleteJobs_cons. destruct (shouldDelete (srcObjs c !! p)).
    + eapply rtc_l.
      { eapply step_delete_send; [reflexivity|]. simpl. unfold jobsCap. lia. }
      etrans; [apply (idle_one_job (PDeleteRange rest))|].
      etrans; [apply IH|]. rewrite <- app_assoc. apply rtc_refl.
    + apply IH.
Qed.

(** With the queue closed and empty, the workers return one by one. *)
Lemma idle_workers_exit n m ran :
  rtc (step s c)
    (idle (replicate m WExited ++ replicate n WSelect) PWait true ran)
    (idle (replicate (m + n) WExited) PWait true ran).
Proof.
  revert m; induction n as [|n IH]; intros m.
  - simpl. rewrite app_nil_r, Nat.add_0_r. apply rtc_refl.
  - eapply rtc_l.
    { eapply step_worker_closed with (i := m); [|reflexivity..].
      simpl. rewrite lookup_app_r by (rewrite length_replicate; lia).
      rewrite length_replicate, Nat.sub_diag. reflexivity. }
    unfold idle, setWorker, setWorkers. simpl.
    rewrite insert_app_r_alt by (rewrite length_replicate; lia).
    rewrite length_replicate, Nat.sub_diag. simpl.
    rewrite (cons_middle WExited), app_assoc, <- replicate_S_end.
    replace (m + S n)%nat with (S m + n)%nat by lia. apply IH.
Qed.

Lemma idle_plan_run :
  rtc (step s c) (idle (replicate k WSelect) PStart false [])
    (idle (replicate k WExited) (PReturned None) true (plan s c)).
Proof.
  eapply rtc_l; [by eapply step_copy_range|].
  etrans; [apply idle_copy_loop|]. simpl.
  assert (Hdel : rtc (step s c)
            (idle (replicate k WSelect) PDeleteCheck false
               (copyJobs c (map_to_list (srcObjs c))))
            (idle (replicate k WSelect) PClose false (plan s c))).
  { rewrite plan_jobs. destruct (deleteDestination s) eqn:Ed.
    - eapply rtc_l; [by eapply step_delete_range|]. apply idle_delete_loop.
    - eapply rtc_l; [by eapply step_delete_off|]. rewrite app_nil_r. apply rtc_refl. }
  etrans; [exact Hdel|].
  eapply rtc_l; [by apply step_close|].
  etrans; [apply (idle_workers_exit k 0)|].
  eapply rtc_l; [|apply rtc_refl].
  eapply (step_return s c (idle (replicate (0 + k) WExited) PWait true (plan s c)));
    [reflexivity|]. simpl. apply Forall_replicate_eq.
Qed.
End Success.

(** With at least one worker there is a run in which every job of the plan
    is run, in submission order, nothing fails, and nil is returned. *)
Lemma successful_run (s : Syncer) (c : executeCall) :
  1 <= concurrency s ->
  exists st, reachable s c st /\ prod st = PReturned None /\
             started st = plan s c /\ failures st = [] /\ callerErr st = None.
Proof.
  intros Hk.
  exists (idle (replicate (Z.to_nat (concurrency s)) WExited) (PReturned None) true
            (plan s c)).
  split; [|by repeat split].
  unfold reachable. apply (idle_plan_run s c (Z.to_nat (concurrency s))). lia.
Qed.

(** ** The pool, fail-fast and cancellation *)

(** C9: the concurrency is 16 unless set, [config.Load] only yields values
    of at least 1, and with a concurrency [k] of at least 1 no state of a
    run has more than [k] executor invocations in flight, whatever the
    plan. *)
Theorem at_most_k_in_flight :
  (forall cl, exists s0, New (inr cl) [] = inr s0 /\ concurrency s0 = 16) /\
  (forall str scanned, 1 <= loadConcurrency str scanned) /\
  (forall scanned, loadConcurrency "" scanned = 16) /\
  (forall s c st, 1 <= concurrency s -> reachable s c st ->
                  Z.of_nat (inFlight st) <= concurrency s).
Proof.
  split; [|split; [|split]].
  - intros cl. eexists. split; reflexivity.
  - intros str scanned. unfold loadConcurrency.
    destruct (negb _); [|lia]. destruct scanned as [|n]; [lia|].
    destruct (Z.ltb_spec 0 n); lia.
  - done.
  - intros s c st Hk Hr.
    pose proof (inFlight_le_workers st) as H.
    rewrite (reachable_workers_length _ _ _ Hr) in H. lia.
Qed.

Lemma at_most_k_in_flight_witness :
  exists st, reachable (scenarioSyncer scenarioClient false 2) scenarioCall st /\
             inFlight st = 2%nat /\ Z.of_nat (inFlight st) <= 2.
Proof.
  destruct (endsIn_reachable (scenarioSyncer scenarioClient false 2) scenarioCall
              [ARange; ANext; ASend; ANext; ANext; ASend; ARecv 0; ARecv 1]
              (fun st => inFlight st = 2%nat)) as (st & Hr & Hin).
  { by vm_compute. }
  exists st. split; [done|]. split; [done|].
  apply (proj2 (proj2 (proj2 at_most_k_in_flight))
           (scenarioSyncer scenarioClient false 2) scenarioCall st); [simpl; lia|done].
Defined.

(** C4, as the code has it.  When [executeSync] returns after some
    executor failed, the context is done and the value returned is one
    error: the first one an executor returned, unless the derived context
    ended with [DeadlineExceeded], which only the caller's deadline brings
    about, in which case it is [DeadlineExceeded]; with no failure and a
    live caller context it returns nil.  After a failure the context is
    done or the worker that failed is about to cancel it.  Once the context
    is done it keeps its error, so that a deadline which passes after a
    cancellation changes nothing and the first executor error is returned;
    the producer sends at most the job it is already offering; a worker at
    its [select] with a job in the queue may return or may still take that
    job and start it; and a worker that has returned stays so.  With at
    least one worker some run executes the whole plan without a failure and
    returns nil. *)
Theorem fail_fast (s : Syncer) (c : executeCall) (st : state) :
  reachable s c st ->
  (forall r, prod st = PReturned r ->
     (forall e l, failures st = e :: l ->
        ctxErr st <> None /\
        r = Some (if decide (ctxErr st = Some DeadlineExceeded)
                  then DeadlineExceeded else e)) /\
     (failures st = [] -> callerErr st = None -> r = None)) /\
  (ctxErr st = Some DeadlineExceeded -> callerErr st = Some DeadlineExceeded) /\
  (failures st <> [] -> ctxErr st <> None \/ WFailed ∈ workers st) /\
  (forall st', rtc (step s c) st st' -> ctxErr st <> None ->
     ctxErr st' = ctxErr st /\
     (length (submitted st') <= length (submitted st) + lateSends (prod st))%nat) /\
  (forall st' r e l, rtc (step s c) st st' -> ctxErr st = Some Canceled ->
     prod st' = PReturned r -> failures st' = e :: l -> r = Some e) /\
  (forall i j q, ctxErr st <> None ->
     workers st !! i = Some WSelect -> jobs st = j :: q ->
     (exists st', step s c st st' /\ workers st' !! i = Some WExited /\
                  started st' = started st) /\
     (exists st', step s c st st' /\ workers st' !! i = Some (WExec j) /\
                  started st' = started st ++ [j])) /\
  (forall st' i, rtc (step s c) st st' ->
     workers st !! i = Some WExited -> workers st' !! i = Some WExited) /\
  (1 <= concurrency s ->
   exists st', reachable s c st' /\ prod st' = PReturned None /\
               started st' = plan s c /\ failures st' = [] /\ callerErr st' = None).
Proof.
  intros Hr. pose proof (reachable_ctxInv _ _ _ Hr) as (I1 & I2 & I3).
  split; [|split; [|split; [done|split; [|split; [|split; [|split]]]]]];
    [| | | | | |apply successful_run].
  - intros r Hret. destruct (reachable_returned _ _ _ _ Hr Hret) as [-> Hall].
    pose proof (reachable_first_error _ _ _ Hr) as Hhd.
    unfold returnValue. rewrite Hhd. split.
    + intros e l Hf. rewrite Hf. simpl.
      assert (Hctx : ctxErr st <> None).
      { destruct I3 as [?|Hin]; [by rewrite Hf|done|].
        apply list_elem_of_lookup in Hin as [k Hk].
        eapply Forall_lookup_1 in Hall; [|exact Hk]. discriminate. }
      split; [done|].
      destruct (ctxErr st) as [e0|] eqn:E; [|done].
      destruct (I2 _ eq_refl) as [->|[-> _]].
      * rewrite decide_True by done. by rewrite decide_False by discriminate.
      * rewrite decide_False by discriminate. by rewrite decide_True by done.
    + intros Hf Hc. rewrite Hf. simpl.
      destruct (ctxErr st) as [e0|] eqn:E; [|done].
      destruct (I2 _ eq_refl) as [->|[_ ?]]; [|congruence].
      by rewrite decide_True by done.
  - intros E. by destruct (I2 _ E) as [|[_ ?]].
  - intros st' Hs Hc. split; [by eapply rtc_ctx_done|].
    pose proof (rtc_late_sends _ _ _ _ Hs Hc). lia.
  - intros st' r e l Hs Hc Hret Hf.
    assert (Hr' : reachable s c st') by (by eapply reachable_rtc).
    destruct (reachable_returned _ _ _ _ Hr' Hret) as [-> _].
    unfold returnValue.
    rewrite (rtc_ctx_done _ _ _ _ Hs) by congruence. rewrite Hc.
    rewrite decide_True by done.
    by rewrite (reachable_first_error _ _ _ Hr'), Hf.
  - intros i j q Hc Hw Hj.
    assert (Hi : (i < length (workers st))%nat) by (by eapply lookup_lt_Some).
    split.
    + exists (setWorker i WExited st). split; [by apply step_worker_done|].
      split; [|done]. simpl. by apply list_lookup_insert_eq.
    + exists (setWorker i (WExec j) (setStarted (started st ++ [j]) (setJobs q st))).
      split; [by apply step_worker_recv|].
      split; [|done]. simpl. by apply list_lookup_insert_eq.
  - intros st' i Hs. by eapply rtc_exited.
Qed.

Lemma fail_fast_witness :
  (exists st,
     reachable (scenarioSyncer scenarioClient false 2) scenarioCall st /\
     failures st = [ErrIO "NoSuchKey"; ErrIO "disk full"] /\
     prod st = PReturned (Some (ErrIO "NoSuchKey"))) /\
  (exists st,
     reachable (scenarioSyncer scenarioClient false 1) scenarioCall st /\
     callerErr st = Some DeadlineExceeded /\ ctxErr st = Some Canceled /\
     failures st = [ErrIO "disk full"] /\
     prod st = PReturned (Some (ErrIO "disk full"))).
Proof.
  split.
  - destruct (endsIn_reachable (scenarioSyncer scenarioClient false 2) scenarioCall
                failSchedule
                (fun st => failures st = [ErrIO "NoSuchKey"; ErrIO "disk full"] /\
                           ctxErr st = Some Canceled /\
                           exists r, prod st = PReturned r))
      as (st & Hr & Hf & Hc & r & Hp).
    { vm_compute. split; [done|]. split; [done|]. by eexists. }
    exists st. split; [done|]. split; [done|].
    destruct (proj1 (fail_fast _ _ st Hr) r Hp) as [H _].
    destruct (H _ _ Hf) as [_ ->]. rewrite Hp. rewrite Hc.
    by rewrite decide_False by discriminate.
  - destruct (endsIn_reachable (scenarioSyncer scenarioClient false 1) scenarioCall
                lateDeadlineSchedule
                (fun st => callerErr st = Some DeadlineExceeded /\
                           failures st = [ErrIO "disk full"] /\
                           ctxErr st = Some Canceled /\
                           exists r, prod st = PReturned r))
      as (st & Hr & Hcaller & Hf & Hc & r & Hp).
    { vm_compute. split; [done|]. split; [done|]. split; [done|]. by eexists. }
    exists st. split; [done|]. split; [done|]. split; [done|]. split; [done|].
    destruct (proj1 (fail_fast _ _ st Hr) r Hp) as [H _].
    destruct (H _ _ Hf) as [_ ->]. rewrite Hp. rewrite Hc.
    by rewrite decide_False by discriminate.
Defined.

(** C4 as stated fails twice.  A run returns [DeadlineExceeded] although
    the only executor error is another one; and after the first failure has
    cancelled the context, a worker at its [select] still takes the next
    job from the queue. *)
Lemma fail_fast_counterexample :
  (exists st e l r,
     reachable (scenarioSyncer scenarioClient false 1) scenarioCall st /\
     prod st = PReturned r /\ failures st = e :: l /\ r <> Some e) /\
  (exists st st',
     reachable (scenarioSyncer scenarioClient false 2) scenarioCall st /\
     failures st <> [] /\ ctxErr st = Some Canceled /\
     step (scenarioSyncer scenarioClient false 2) scenarioCall st st' /\
     started st' = started st ++ [copyJob scenarioCall "base/c.txt"] /\
     workers st' !! 1%nat = Some (WExec (copyJob scenarioCall "base/c.txt"))).
Proof.
  split.
  - destruct (endsIn_reachable (scenarioSyncer scenarioClient false 1) scenarioCall
                deadlineSchedule
                (fun st => prod st = PReturned (Some DeadlineExceeded) /\
                           failures st = [ErrIO "disk full"]))
      as (st & Hr & Hp & Hf).
    { by vm_compute. }
    exists st, (ErrIO "disk full"), [], (Some DeadlineExceeded). by repeat split.
  - destruct (endsIn_reachable (scenarioSyncer scenarioClient false 2) scenarioCall
                firstFailureSchedule
                (fun st => failures st <> [] /\ ctxErr st = Some Canceled /\
                   endsIn (scenarioSyncer scenarioClient false 2) scenarioCall [ARecv 1] st
                     (fun st' =>
                        started st' = started st ++ [copyJob scenarioCall "base/c.txt"] /\
                        workers st' !! 1%nat = Some (WExec (copyJob scenarioCall "base/c.txt")))))
      as (st & Hr & Hf & Hc & Hend).
    { vm_compute. by repeat split. }
    apply endsIn_step in Hend as (st' & Hs & Hst & Hw).
    exists st, st'. by repeat split.
Defined.

(** C10, as the code has it: when the caller's context was cancelled with
    [context.Canceled], the derived context ends with [Canceled], which the
    return path discards, and [executeSync], and [Sync] with it, returns
    the first error an executor returned during the whole run, before the
    cancellation or after it, and nil exactly when there was none, whatever
    part of the plan was run. *)
Theorem caller_cancel_returns_nil (fs : FileSystem) (s : Syncer) (src dst : string)
    (evs : list event) (c : executeCall) (st : state) (r : option error) :
  Sync fs s src dst = (evs, inr c) ->
  reachable s c st -> prod st = PReturned r ->
  callerErr st = Some Canceled ->
  ctxErr st = Some Canceled /\
  r = head (failures st) /\
  (r = None <-> failures st = []) /\
  SyncReturns fs s src dst (started st) r.
Proof.
  intros Hsync Hr Hp Hc.
  pose proof (reachable_ctxInv _ _ _ Hr) as (I1 & I2 & _).
  assert (Hctx : ctxErr st = Some Canceled).
  { destruct (ctxErr st) as [e|] eqn:E.
    - destruct (I2 _ eq_refl) as [->|[_ ?]]; [done|congruence].
    - exfalso. apply I1; [congruence|done]. }
  assert (Hret : r = head (failures st)).
  { destruct (reachable_returned _ _ _ _ Hr Hp) as [-> _].
    unfold returnValue. rewrite Hctx. rewrite decide_True by done.
    by apply reachable_first_error with (s := s) (c := c). }
  split; [done|]. split; [done|]. split.
  - rewrite Hret. by destruct (failures st).
  - by eapply SyncReturns_executed.
Qed.

Lemma caller_cancel_returns_nil_witness :
  (exists st,
     reachable (scenarioSyncer scenarioClient false 1) scenarioCall st /\
     submitted st = [copyJob scenarioCall "sub/b.txt"] /\ started st = [] /\
     SyncReturns scenarioFS (scenarioSyncer scenarioClient false 1)
       "s3://bucket/data" "/data" [] None) /\
  (exists st,
     reachable (scenarioSyncer scenarioClient false 2) scenarioCall st /\
     callerErr st = Some Canceled /\
     failures st = [ErrIO "NoSuchKey"; ErrIO "disk full"] /\
     prod st = PReturned (Some (ErrIO "NoSuchKey"))).
Proof.
  split.
  - destruct (endsIn_reachable (scenarioSyncer scenarioClient false 1) scenarioCall
                cancelQueuedSchedule
                (fun st => submitted st = [copyJob scenarioCall "sub/b.txt"] /\
                           started st = [] /\ callerErr st = Some Canceled /\
                           failures st = [] /\ exists r, prod st = PReturned r))
      as (st & Hr & Hsub & Hst & Hc & Hf & r & Hp).
    { vm_compute. repeat split. by eexists. }
    exists st. split; [done|]. split; [done|]. split; [done|].
    destruct (caller_cancel_returns_nil scenarioFS
                (scenarioSyncer scenarioClient false 1) "s3://bucket/data" "/data"
                [EvLog "s3://bucket/data" "/data"; EvListS3 "bucket" "data";
                 EvWalkLocal "/data"]
                scenarioCall st r) as (_ & Hret & _ & Hsync);
      [by vm_compute|done..|].
    rewrite Hf in Hret. simpl in Hret. rewrite Hret, Hst in Hsync. exact Hsync.
  - destruct (endsIn_reachable (scenarioSyncer scenarioClient false 2) scenarioCall
                cancelTwoInFlightSchedule
                (fun st => callerErr st = Some Canceled /\
                           failures st = [ErrIO "NoSuchKey"; ErrIO "disk full"] /\
                           exists r, prod st = PReturned r))
      as (st & Hr & Hc & Hf & r & Hp).
    { vm_compute. split; [done|]. split; [done|]. by eexists. }
    exists st. split; [done|]. split; [done|]. split; [done|].
    destruct (caller_cancel_returns_nil scenarioFS
                (scenarioSyncer scenarioClient false 2) "s3://bucket/data" "/data"
                [EvLog "s3://bucket/data" "/data"; EvListS3 "bucket" "data";
                 EvWalkLocal "/data"]
                scenarioCall st r) as (_ & Hret & _ & _);
      [by vm_compute|done..|].
    rewrite Hp, Hret, Hf. reflexivity.
Defined.

(** C10 as stated fails: the caller cancels while a copy is in flight and
    no executor has returned an error yet; the copy then fails, its error
    is in the channel, and that error is returned, not nil. *)
Lemma caller_cancel_counterexample :
  exists st0 st err,
    reachable (scenarioSyncer scenarioClient false 1) scenarioCall st0 /\
    callerErr st0 = Some Canceled /\ failures st0 = [] /\ inFlight st0 = 1%nat /\
    rtc (step (scenarioSyncer scenarioClient false 1) scenarioCall) st0 st /\
    prod st = PReturned (Some err) /\
    SyncReturns scenarioFS (scenarioSyncer scenarioClient false 1)
      "s3://bucket/data" "/data" (started st) (Some err).
Proof.
  destruct (endsIn_reachable (scenarioSyncer scenarioClient false 1) scenarioCall
              cancelInFlightSchedule
              (fun st0 => callerErr st0 = Some Canceled /\ failures st0 = [] /\
                 inFlight st0 = 1%nat /\
                 endsIn (scenarioSyncer scenarioClient false 1) scenarioCall
                   failAfterCancelSchedule st0
                   (fun st => prod st = PReturned (Some (ErrIO "context canceled")))))
    as (st0 & Hr & Hc & Hf & Hin & Hend).
  { by vm_compute. }
  apply endsIn_rtc in Hend as (st & Hs & Hp).
  exists st0, st, (ErrIO "context canceled"). repeat split; try done.
  eapply SyncReturns_executed; [by vm_compute| |done].
  by eapply reachable_rtc.
Defined.

(** * Further properties of the code *)

(** ** Endpoints *)

Lemma SplitN2_noSlash (b : string) : noSlash b -> SplitN2 b = (b, None).
Proof.
  unfold noSlash. induction b as [|a b IH]; simpl; [done|].
  intros H. destruct (Ascii.eqb_spec a "/"%char) as [->|Hne].
  - exfalso. apply H. by left.
  - rewrite IH; [done|]. intros Hin. apply H. by right.
Qed.

Lemma SplitN2_slash (b rest : string) :
  noSlash b -> SplitN2 (b +:+ "/" +:+ rest) = (b, Some rest).
Proof.
  unfold noSlash. induction b as [|a b IH]; simpl; [done|].
  intros H. destruct (Ascii.eqb_spec a "/"%char) as [->|Hne].
  - exfalso. apply H. by left.
  - rewrite IH; [done|]. intros Hin. apply H. by right.
Qed.

Lemma SplitN2_fst_noSlash (s : string) : noSlash (SplitN2 s).1.
Proof.
  unfold noSlash. induction s as [|a s IH]; simpl; [tauto|].
  destruct (Ascii.eqb_spec a "/"%char) as [->|Hne]; simpl; [tauto|].
  destruct (SplitN2 s) as [x y]. simpl in *. intros [Ha|Hin]; [congruence|tauto].
Qed.

Lemma SplitN2_join (s : string) :
  s = match (SplitN2 s).2 with
      | Some rest => (SplitN2 s).1 +:+ "/" +:+ rest
      | None => (SplitN2 s).1
      end.
Proof.
  induction s as [|a s IH]; simpl; [done|].
  destruct (Ascii.eqb_spec a "/"%char) as [->|Hne]; simpl; [done|].
  destruct (SplitN2 s) as [x [y|]]; simpl in *; by rewrite IH at 1.
Qed.

(** X1: [parseS3URI] takes a URI ["s3://bucket/prefix"] apart into its
    bucket and its prefix, and ["s3://bucket"] into the bucket and the empty
    prefix, for every bucket name without a separator; the bucket it
    returns never holds a separator; and everything after the first
    separator is the prefix, a trailing separator included. *)
Theorem parseS3URI_roundtrip (bucket prefix : string) :
  noSlash bucket ->
  parseS3URI ("s3://" +:+ bucket +:+ "/" +:+ prefix) = (bucket, prefix) /\
  parseS3URI ("s3://" +:+ bucket) = (bucket, "") /\
  (forall uri, noSlash (parseS3URI uri).1) /\
  (forall uri, (parseS3URI uri).2 <> "" ->
     TrimPrefix uri "s3://" = (parseS3URI uri).1 +:+ "/" +:+ (parseS3URI uri).2).
Proof.
  intros Hb. unfold parseS3URI. split; [|split; [|split]].
  - rewrite (TrimPrefix_app "s3://"). by rewrite SplitN2_slash.
  - rewrite (TrimPrefix_app "s3://"). by rewrite SplitN2_noSlash.
  - intros uri. pose proof (SplitN2_fst_noSlash (TrimPrefix uri "s3://")) as H.
    by destruct (SplitN2 (TrimPrefix uri "s3://")).
  - intros uri. pose proof (SplitN2_join (TrimPrefix uri "s3://")) as H.
    destruct (SplitN2 (TrimPrefix uri "s3://")) as [b [r|]]; simpl in *; done.
Qed.

Lemma parseS3URI_roundtrip_witness :
  parseS3URI "s3://my-bucket/backups/data/" = ("my-bucket", "backups/data/") /\
  parseS3URI "s3://my-bucket" = ("my-bucket", "").
Proof.
  assert (H : noSlash "my-bucket").
  { unfold noSlash. simpl. intros [|[|[|[|[|[|[|[|[|[]]]]]]]]]]; discriminate. }
  split.
  - apply (parseS3URI_roundtrip "my-bucket" "backups/data/" H).
  - apply (parseS3URI_roundtrip "my-bucket" "backups/data/" H).
Defined.

(** ** Snapshots *)

Lemma fold_insert_lastWins (entries : list (string * ObjectInfo))
    (objs : gmap string ObjectInfo) :
  fold_left (fun m e => <[e.1 := e.2]> m) entries objs = lastWins entries ∪ objs.
Proof.
  unfold lastWins. revert objs; induction entries as [|[p i] entries IH]; intros objs.
  - simpl. by rewrite (left_id_L ∅ (∪)).
  - simpl. rewrite IH. rewrite reverse_cons, list_to_map_app. simpl.
    rewrite <- (assoc_L (∪)). f_equal.
    rewrite insert_empty. by rewrite <- insert_union_singleton_l.
Qed.

Lemma fold_listObject_entries prefix filter contents objs :
  fold_left (listObject prefix filter) contents objs =
  fold_left (fun m e => <[e.1 := e.2]> m) (omap (listed prefix filter) contents) objs.
Proof.
  revert objs; induction contents as [|obj contents IH]; intros objs; [done|].
  simpl. rewrite IH, listObject_listed.
  by destruct (listed prefix filter obj) as [[p i]|].
Qed.

Lemma listPages_ok prefix filter (contents : list (list Object)) objs :
  listPages prefix filter (inr <$> contents) objs =
  inr (fold_left (fun m e => <[e.1 := e.2]> m)
         (omap (listed prefix filter) (concat contents)) objs).
Proof.
  revert objs; induction contents as [|cs contents IH]; intros objs; [done|].
  simpl. rewrite IH, fold_listObject_entries.
  by rewrite omap_app, fold_left_app.
Qed.

(** X2: when every page of the listing succeeds, the snapshot of
    [ListS3Objects] is made of the entries of the listed objects in listing
    order, the last entry of a relative path replacing the earlier ones;
    so an object not followed by another of the same relative path is in
    the snapshot with its own key, size and time. *)
Theorem ListS3Objects_last_wins (client : S3Client) (bucket prefix : string)
    (filter : option (string -> bool)) (contents : list (list Object)) :
  ListObjectsV2 client bucket prefix = inr <$> contents ->
  ListS3Objects client bucket prefix filter =
    inr (lastWins (omap (listed prefix filter) (concat contents))) /\
  (forall before p info after,
     omap (listed prefix filter) (concat contents) = before ++ (p, info) :: after ->
     ~ p ∈ after.*1 ->
     exists objs, ListS3Objects client bucket prefix filter = inr objs /\
                  objs !! p = Some info).
Proof.
  intros Hpages.
  assert (H : ListS3Objects client bucket prefix filter =
              inr (lastWins (omap (listed prefix filter) (concat contents)))).
  { unfold ListS3Objects. rewrite Hpages, listPages_ok, fold_insert_lastWins.
    by rewrite (right_id_L ∅ (∪)). }
  split; [done|].
  intros before p info after Heq Hnot. eexists. split; [exact H|].
  rewrite Heq. unfold lastWins.
  rewrite reverse_app, reverse_cons, <- app_assoc. simpl.
  rewrite list_to_map_app. apply lookup_union_Some_raw. right. split.
  - apply not_elem_of_list_to_map_1. rewrite fmap_reverse.
    intros Hin. apply Hnot. by apply elem_of_reverse.
  - apply lookup_insert_eq.
Qed.

Lemma ListS3Objects_last_wins_witness :
  exists objs,
    ListS3Objects collidingClient "bucket" "data" None = inr objs /\
    objs !! "base/c.txt" = Some (objectInfo "database/c.txt" 7 40).
Proof.
  apply (proj2 (ListS3Objects_last_wins collidingClient "bucket" "data" None
                  [ [ {| objKey := Some "data/base/c.txt"; objSize := Some 1;
                         objLastModified := Some 10 |} ];
                    [ {| objKey := Some "database/c.txt"; objSize := Some 7;
                         objLastModified := Some 40 |} ] ]
                  eq_refl)
           [("base/c.txt", objectInfo "data/base/c.txt" 1 10)]
           "base/c.txt" (objectInfo "database/c.txt" 7 40) []).
  - reflexivity.
  - intros H. by apply elem_of_nil in H.
Defined.

(** X3: [ListS3Objects] fails exactly when some page of the listing fails,
    and its error is the error of the first failing page, wrapped; the
    pages after it are not read. *)
Theorem ListS3Objects_first_error (client : S3Client) (bucket prefix : string)
    (filter : option (string -> bool)) (e : error) :
  ListS3Objects client bucket prefix filter = inl e <->
  exists (contents : list (list Object)) err rest,
    ListObjectsV2 client bucket prefix = (inr <$> contents) ++ inl err :: rest /\
    e = Errorf "failed to list objects" err.
Proof. unfold ListS3Objects. apply listPages_inl_iff. Qed.

(** ** The local walk *)

Lemma WalkDir_readable fs root filter calls objects :
  ~ Exists (unreadable fs root filter) calls ->
  WalkDir fs root filter calls objects =
    inr (fold_left (fun m e => <[e.1 := e.2]> m)
           (omap (walked fs root filter) calls) objects).
Proof.
  revert objects; induction calls as [|c calls IH]; intros objects H; [done|].
  simpl. destruct (walkFn_cases fs root filter objects c) as [[Hu _]|[_ ->]].
  { exfalso. apply H. by left. }
  rewrite IH by (intros ?; apply H; by right).
  by destruct (walked fs root filter c).
Qed.

Lemma WalkDir_inr fs root filter calls objects objs :
  WalkDir fs root filter calls objects = inr objs ->
  ~ Exists (unreadable fs root filter) calls.
Proof.
  revert objects; induction calls as [|c calls IH]; intros objects; simpl.
  - intros _ H. by apply Exists_nil in H.
  - destruct (walkFn_cases fs root filter objects c) as [[_ [e ->]]|[Hn ->]]; [done|].
    intros H Hex. apply Exists_cons in Hex as [?|Hex]; [done|].
    by eapply IH.
Qed.

Lemma walked_key fs root filter c p info :
  walked fs root filter c = Some (p, info) -> Key info = p.
Proof.
  unfold walked. destruct (werr c); [done|]. destruct (IsDir (wd c)); [done|].
  destruct (Rel fs root (wpath c)) as [|rp]; [done|].
  destruct (rejected filter rp); [done|].
  destruct (Info (wd c)); [done|]. by intros [= <- <-].
Qed.

(** X4: [WalkLocal] succeeds exactly when no call of the walk is
    unreadable; its snapshot is then made of the entries of the files that
    pass the filter, in walk order, the last entry of a relative path
    staying, directories contribute nothing, and the [Key] of every entry
    is the relative path it is stored under.  Every error of [WalkLocal] is
    wrapped as a failure to walk the directory. *)
Theorem WalkLocal_snapshot (fs : FileSystem) (root : string)
    (filter : option (string -> bool)) :
  (~ Exists (unreadable fs root filter) (WalkDirCalls fs root) ->
   WalkLocal fs root filter =
     inr (lastWins (omap (walked fs root filter) (WalkDirCalls fs root)))) /\
  (forall objs, WalkLocal fs root filter = inr objs ->
     ~ Exists (unreadable fs root filter) (WalkDirCalls fs root) /\
     forall p info, objs !! p = Some info -> Key info = p) /\
  (forall c, IsDir (wd c) = true -> walked fs root filter c = None) /\
  (forall e, WalkLocal fs root filter = inl e ->
     exists e', e = Errorf "failed to walk local directory" e').
Proof.
  assert (Hok : ~ Exists (unreadable fs root filter) (WalkDirCalls fs root) ->
    WalkLocal fs root filter =
      inr (lastWins (omap (walked fs root filter) (WalkDirCalls fs root)))).
  { intros H. unfold WalkLocal. rewrite WalkDir_readable by done.
    rewrite fold_insert_lastWins. by rewrite (right_id_L ∅ (∪)). }
  split; [done|]. split; [|split].
  - intros objs H.
    assert (Hn : ~ Exists (unreadable fs root filter) (WalkDirCalls fs root)).
    { unfold WalkLocal in H.
      destruct (WalkDir fs root filter (WalkDirCalls fs root) ∅) eqn:E; [done|].
      by eapply WalkDir_inr. }
    split; [done|]. intros p info Hp.
    rewrite (Hok Hn) in H. injection H as <-. unfold lastWins in Hp.
    apply elem_of_list_to_map_2 in Hp. rewrite elem_of_reverse in Hp.
    apply list_elem_of_omap in Hp as (c & _ & Hc). by eapply walked_key.
  - intros c Hd. unfold walked. destruct (werr c); [done|]. by rewrite Hd.
  - intros e. unfold WalkLocal.
    destruct (WalkDir fs root filter (WalkDirCalls fs root) ∅); [|done].
    intros [= <-]. by eexists.
Qed.

Lemma WalkLocal_snapshot_witness :
  exists objs,
    WalkLocal scenarioFS "/data" (Some scenarioFilter) = inr objs /\
    dom objs = {[ "a.txt"; "old.txt" ]} /\
    forall p info, objs !! p = Some info -> Key info = p.
Proof.
  eexists. split; [reflexivity|]. split; [by vm_compute|].
  apply (proj1 (proj2 (WalkLocal_snapshot scenarioFS "/data" (Some scenarioFilter)))).
  reflexivity.
Defined.

(** ** The filter, from the enumerators to the plan *)

Lemma ListS3Objects_rejected client bucket prefix filter objs p :
  ListS3Objects client bucket prefix filter = inr objs ->
  rejected filter p = true -> objs !! p = None.
Proof.
  intros H Hr. destruct (objs !! p) as [info|] eqn:E; [|done]. exfalso.
  destruct (listPages_lookup _ _ _ _ _ _ _ H E) as [H0|(cs & o & _ & _ & Hl)].
  - by rewrite lookup_empty in H0.
  - apply listed_Some in Hl as (_ & _ & Hf & _). congruence.
Qed.

Lemma WalkLocal_rejected fs root filter objs p :
  WalkLocal fs root filter = inr objs ->
  rejected filter p = true -> objs !! p = None.
Proof.
  unfold WalkLocal.
  destruct (WalkDir fs root filter (WalkDirCalls fs root) ∅) as [|o] eqn:E; [done|].
  intros [= <-] Hr. eapply WalkDir_filtered; [done|done|apply lookup_empty].
Qed.

(** A [Sync] that reaches [executeSync] has enumerated both sides, the
    remote one with the bucket and prefix of its URI. *)
Lemma Sync_inr_inv fs s src dst evs c :
  Sync fs s src dst = (evs, inr c) ->
  (ListS3Objects (client s) (parseS3URI src).1 (parseS3URI src).2 (filter_ s)
     = inr (srcObjs c) /\
   WalkLocal fs dst (filter_ s) = inr (dstObjs c)) \/
  (WalkLocal fs src (filter_ s) = inr (srcObjs c) /\
   ListS3Objects (client s) (parseS3URI dst).1 (parseS3URI dst).2 (filter_ s)
     = inr (dstObjs c)).
Proof.
  unfold Sync.
  destruct (HasPrefix src "s3://" && negb (HasPrefix dst "s3://")).
  - unfold syncS3ToLocal. destruct (parseS3URI src) as [b pre]. simpl.
    destruct (ListS3Objects (client s) b pre (filter_ s)) as [|so] eqn:El; [done|].
    destruct (WalkLocal fs dst (filter_ s)) as [|do] eqn:Ew; [done|].
    intros [= _ <-]. left. done.
  - destruct (negb (HasPrefix src "s3://") && HasPrefix dst "s3://"); [|done].
    unfold syncLocalToS3. destruct (parseS3URI dst) as [b pre]. simpl.
    destruct (WalkLocal fs src (filter_ s)) as [|so] eqn:Ew; [done|].
    destruct (ListS3Objects (client s) b pre (filter_ s)) as [|do] eqn:El; [done|].
    intros [= _ <-]. right. done.
Qed.

Lemma rejected_not_planned fs s src dst evs c p :
  Sync fs s src dst = (evs, inr c) ->
  rejected (filter_ s) p = true ->
  srcObjs c !! p = None /\ dstObjs c !! p = None /\
  ~ p ∈ copySet c /\ ~ p ∈ deleteSet s c.
Proof.
  intros Hsync Hr.
  assert (Hs : srcObjs c !! p = None /\ dstObjs c !! p = None).
  { destruct (Sync_inr_inv _ _ _ _ _ _ Hsync) as [[H1 H2]|[H1 H2]];
      eauto using ListS3Objects_rejected, WalkLocal_rejected. }
  destruct Hs as [Hsrc Hdst]. repeat split; try done.
  - rewrite elem_of_copySet. intros (i & Hi & _). congruence.
  - rewrite elem_of_deleteSet. intros (_ & [i Hi] & _). congruence.
Qed.

(** X5: a path the filter of the syncer rejects is in neither snapshot of
    a [Sync] and in neither set of its plan; no job with that path is ever
    submitted, and no executor is ever invoked with it, in either direction,
    with deletion enabled or not.  The path is the relative path a job
    carries, the one the filter is asked about: which file or object an
    executor names with it is not part of the statement. *)
Theorem filtered_never_planned (fs : FileSystem) (s : Syncer) (src dst : string)
    (evs : list event) (c : executeCall) (p : string) :
  Sync fs s src dst = (evs, inr c) ->
  rejected (filter_ s) p = true ->
  srcObjs c !! p = None /\ dstObjs c !! p = None /\
  ~ p ∈ copySet c /\ ~ p ∈ deleteSet s c /\
  (forall st j, reachable s c st -> j ∈ submitted st -> path j <> p) /\
  (forall st j, reachable s c st -> j ∈ started st -> path j <> p).
Proof.
  intros Hsync Hr.
  destruct (rejected_not_planned _ _ _ _ _ _ _ Hsync Hr) as (Hsrc & Hdst & Hc & Hd).
  assert (Hsubm : forall st j, reachable s c st -> j ∈ submitted st -> path j <> p).
  { intros st j Hreach Hj Hp.
    pose proof (reachable_submitted_plan _ _ _ Hreach) as Hsub.
    apply (elem_of_submseteq _ _ _ Hj) in Hsub.
    apply (list_elem_of_fmap_2 path) in Hsub. rewrite plan_paths, Hp in Hsub.
    apply elem_of_app in Hsub as [?|?]; done. }
  repeat split; try done.
  intros st j Hreach Hj. apply (Hsubm st j Hreach).
  rewrite (reachable_fifo _ _ _ Hreach). apply elem_of_app. by left.
Qed.

Lemma filtered_never_planned_witness :
  exists c,
    (Sync scenarioFS (scenarioSyncer scenarioClient true 4) "s3://bucket/data" "/data").2
      = inr c /\
    ~ ".s3sync_done" ∈ copySet c /\
    ~ ".s3sync_done" ∈ deleteSet (scenarioSyncer scenarioClient true 4) c.
Proof.
  exists scenarioCall. split; [by vm_compute|].
  destruct (filtered_never_planned scenarioFS (scenarioSyncer scenarioClient true 4)
              "s3://bucket/data" "/data"
              [EvLog "s3://bucket/data" "/data"; EvListS3 "bucket" "data";
               EvWalkLocal "/data"]
              scenarioCall ".s3sync_done") as (_ & _ & Hc & Hd & _);
    [by vm_compute|reflexivity|done].
Defined.

(** ** The syncer of [main] *)

Lemma substring_app_r (a b : string) (n : nat) :
  substring (String.length a) n (a +:+ b) = substring 0 n b.
Proof. induction a as [|x a IH]; [done|]. simpl. exact IH. Qed.

Lemma substring_all (b : string) : substring 0 (String.length b) b = b.
Proof. induction b as [|x b IH]; [done|]. simpl. by rewrite IH. Qed.

Lemma length_append (a b : string) :
  String.length (a +:+ b) = (String.length a + String.length b)%nat.
Proof. induction a as [|x a IH]; [done|]. simpl. by rewrite IH. Qed.

Lemma substring_split (s : string) (n : nat) :
  (n <= String.length s)%nat ->
  s = substring 0 n s +:+ substring n (String.length s - n) s.
Proof.
  revert s; induction n as [|n IH]; intros s Hn.
  - simpl. rewrite Nat.sub_0_r, substring_all. by destruct s.
  - destruct s as [|x s]; simpl in *; [lia|].
    change (String x s = String x (substring 0 n s +:+
                                   substring n (String.length s - n) s)).
    f_equal. apply IH. lia.
Qed.

Lemma HasSuffix_app (a suffix : string) : HasSuffix (a +:+ suffix) suffix = true.
Proof.
  unfold HasSuffix. rewrite length_append.
  replace (String.length a + String.length suffix - String.length suffix)%nat
    with (String.length a) by lia.
  rewrite substring_app_r, substring_all, String.eqb_refl.
  rewrite andb_true_r. apply Nat.leb_le. lia.
Qed.

Lemma HasSuffix_true (s suffix : string) :
  HasSuffix s suffix = true -> exists a, s = a +:+ suffix.
Proof.
  unfold HasSuffix. intros H. apply andb_true_iff in H as [Hl He].
  apply Nat.leb_le in Hl. apply String.eqb_eq in He.
  exists (substring 0 (String.length s - String.length suffix) s).
  rewrite (substring_split s (String.length s - String.length suffix)) at 1 by lia.
  f_equal. replace (String.length s - (String.length s - String.length suffix))%nat
    with (String.length suffix) by lia. exact He.
Qed.

(** X6: the syncer [main] builds from a loaded configuration has at least
    one worker, deletes exactly when SYNC_DELETE is ["true"], and rejects
    exactly the paths that end with the sentinel's name; so no [Sync] it
    runs ever plans a copy or a deletion of such a path. *)
Theorem main_syncer (env : Environment) (cl : S3Client) (cfg : Config) (s : Syncer) :
  Load env = inr cfg ->
  mainSyncer (inr cl) cfg = inr s ->
  1 <= concurrency s /\
  (deleteDestination s = true <-> Getenv env "SYNC_DELETE" = "true") /\
  (forall p, rejected (filter_ s) p = true <-> exists d, p = d +:+ sentinelFilename) /\
  (forall fs src dst evs c d,
     Sync fs s src dst = (evs, inr c) ->
     ~ (d +:+ sentinelFilename) ∈ copySet c /\
     ~ (d +:+ sentinelFilename) ∈ deleteSet s c).
Proof.
  intros Hload Hmain. unfold mainSyncer, New in Hmain. simpl in Hmain.
  injection Hmain as <-. simpl.
  assert (Hrej : forall p, negb (sentinelFilter p) = true <->
                           exists d, p = d +:+ sentinelFilename).
  { intros p. unfold sentinelFilter. rewrite negb_involutive. split.
    - apply HasSuffix_true.
    - intros [d ->]. apply HasSuffix_app. }
  unfold Load in Hload.
  destruct (String.eqb (Getenv env "S3_PATH") ""); [done|].
  destruct (String.eqb (Getenv env "SYNC_SCHEDULE") ""); [done|].
  destruct (loadGracePeriod env); [done|]. injection Hload as <-. simpl.
  split; [|split; [|split]].
  - unfold loadConcurrency. destruct (negb _); [|lia].
    destruct (Sscanf env _) as [|n]; [lia|]. destruct (Z.ltb_spec 0 n); lia.
  - apply String.eqb_eq.
  - exact Hrej.
  - intros fs src dst evs c d Hsync.
    match type of Hsync with Sync _ ?s0 _ _ = _ =>
      destruct (rejected_not_planned fs s0 src dst evs c (d +:+ sentinelFilename))
        as (_ & _ & Hc & Hd) end; [done| |done].
    simpl. apply Hrej. by exists d.
Qed.

Lemma main_syncer_witness :
  exists cfg s,
    Load scenarioEnv = inr cfg /\ mainSyncer (inr scenarioClient) cfg = inr s /\
    concurrency s = 4 /\ deleteDestination s = true /\ 1 <= concurrency s.
Proof.
  eexists _, _. split; [reflexivity|]. split; [reflexivity|].
  split; [reflexivity|]. split; [reflexivity|].
  eapply (main_syncer scenarioEnv scenarioClient); reflexivity.
Defined.

(** ** The configuration *)

(** X7: [Load] fails in exactly three cases, tried in this order: S3_PATH
    is empty; SYNC_SCHEDULE is empty; DOCKER_STOP_GRACE_PERIOD is set and
    does not parse, the parser's error being wrapped.  Nothing else makes
    it fail: not SYNC_CONCURRENCY, whatever it holds. *)
Theorem Load_errors (env : Environment) (e : error) :
  Load env = inl e <->
  (Getenv env "S3_PATH" = "" /\
   e = ErrIO "S3_PATH environment variable is required") \/
  (Getenv env "S3_PATH" <> "" /\ Getenv env "SYNC_SCHEDULE" = "" /\
   e = ErrIO "SYNC_SCHEDULE environment variable is required") \/
  (Getenv env "S3_PATH" <> "" /\ Getenv env "SYNC_SCHEDULE" <> "" /\
   Getenv env "DOCKER_STOP_GRACE_PERIOD" <> "" /\
   exists err, ParseDuration env (Getenv env "DOCKER_STOP_GRACE_PERIOD") = inl err /\
               e = Errorf "invalid DOCKER_STOP_GRACE_PERIOD" err).
Proof.
  unfold Load, loadGracePeriod.
  destruct (String.eqb_spec (Getenv env "S3_PATH") "") as [H1|H1].
  { split.
    - intros [= <-]. by left.
    - intros [[_ ->]|[[? _]|[? _]]]; done. }
  destruct (String.eqb_spec (Getenv env "SYNC_SCHEDULE") "") as [H2|H2].
  { split.
    - intros [= <-]. right. by left.
    - intros [[? _]|[(_ & _ & ->)|(_ & ? & _)]]; done. }
  destruct (String.eqb_spec (Getenv env "DOCKER_STOP_GRACE_PERIOD") "") as [H3|H3].
  { split; [done|]. intros [[? _]|[(_ & ? & _)|(_ & _ & ? & _)]]; done. }
  destruct (ParseDuration env (Getenv env "DOCKER_STOP_GRACE_PERIOD")) as [err|d].
  - split.
    + intros [= <-]. right. right. repeat split; try done. by exists err.
    + intros [[? _]|[(_ & ? & _)|(_ & _ & _ & err' & [= <-] & ->)]]; done.
  - split; [done|].
    intros [[? _]|[(_ & ? & _)|(_ & _ & _ & err' & ? & _)]]; done.
Qed.

(** X8: a configuration [Load] returns has a non-empty S3 path, schedule
    and volume path (["/data"] when VOLUME_PATH is unset), a concurrency of
    at least 1, which is 16 whenever SYNC_CONCURRENCY is unset, does not
    scan or scans to a number below 1, a grace period of two minutes
    when none is set, and deletion enabled only for the exact value
    ["true"]. *)
Theorem Load_defaults (env : Environment) (cfg : Config) :
  Load env = inr cfg ->
  S3Path cfg <> "" /\ SyncSchedule cfg <> "" /\ VolumePath cfg <> "" /\
  (Getenv env "VOLUME_PATH" = "" -> VolumePath cfg = "/data") /\
  1 <= Concurrency cfg /\
  (Getenv env "SYNC_CONCURRENCY" = "" \/
   (exists err, Sscanf env (Getenv env "SYNC_CONCURRENCY") = inl err) \/
   (exists n, Sscanf env (Getenv env "SYNC_CONCURRENCY") = inr n /\ n < 1) ->
   Concurrency cfg = 16) /\
  (Getenv env "DOCKER_STOP_GRACE_PERIOD" = "" ->
   DockerStopGracePeriod cfg = 120000000000) /\
  (DeleteDestination cfg = true <-> Getenv env "SYNC_DELETE" = "true").
Proof.
  unfold Load, loadGracePeriod.
  destruct (String.eqb_spec (Getenv env "S3_PATH") "") as [H1|H1]; [done|].
  destruct (String.eqb_spec (Getenv env "SYNC_SCHEDULE") "") as [H2|H2]; [done|].
  intros H.
  assert (exists d, cfg =
    {| S3Path := Getenv env "S3_PATH"; VolumeName := Getenv env "VOLUME_NAME";
       VolumePath := if String.eqb (Getenv env "VOLUME_PATH") "" then "/data"
                     else Getenv env "VOLUME_PATH";
       SyncSchedule := Getenv env "SYNC_SCHEDULE"; DockerStopGracePeriod := d;
       DeleteDestination := String.eqb (Getenv env "SYNC_DELETE") "true";
       Concurrency := loadConcurrency (Getenv env "SYNC_CONCURRENCY")
                        (Sscanf env (Getenv env "SYNC_CONCURRENCY")) |} /\
    (Getenv env "DOCKER_STOP_GRACE_PERIOD" = "" -> d = 120000000000))
    as (d & -> & Hd).
  { destruct (String.eqb_spec (Getenv env "DOCKER_STOP_GRACE_PERIOD") "") as [H3|H3].
    - injection H as <-. by eexists.
    - destruct (ParseDuration env _) as [|d]; [done|]. injection H as <-.
      by exists d. }
  simpl. repeat split; try done.
  - destruct (String.eqb_spec (Getenv env "VOLUME_PATH") ""); done.
  - intros ->. done.
  - unfold loadConcurrency. destruct (negb _); [|lia].
    destruct (Sscanf env _) as [|n]; [lia|]. destruct (Z.ltb_spec 0 n); lia.
  - unfold loadConcurrency. intros [->|[[err ->]|(n & -> & Hn)]]; [done| |].
    + by destruct (negb _).
    + destruct (negb _); [|done]. destruct (Z.ltb_spec 0 n); [lia|done].
  - apply String.eqb_eq.
  - apply String.eqb_eq.
Qed.

Lemma Load_defaults_witness :
  exists cfg, Load scenarioEnv = inr cfg /\
              VolumePath cfg = "/data" /\ Concurrency cfg = 4 /\
              DockerStopGracePeriod cfg = 120000000000 /\ 1 <= Concurrency cfg.
Proof.
  eexists. split; [reflexivity|]. split; [reflexivity|]. split; [reflexivity|].
  split; [reflexivity|].
  eapply (Load_defaults scenarioEnv). reflexivity.
Defined.

Lemma Load_errors_witness :
  Load badGraceEnv =
    inl (Errorf "invalid DOCKER_STOP_GRACE_PERIOD" (ErrIO "time: invalid duration")).
Proof.
  apply (Load_errors badGraceEnv). right. right.
  repeat split; try discriminate. by eexists.
Defined.

(** ** The container manager *)

Lemma stopTargets_cons selfID volumeName c containers :
  stopTargets selfID volumeName (c :: containers) =
    if isAttached volumeName c && negb (isSelf selfID c)
    then ID c :: stopTargets selfID volumeName containers
    else stopTargets selfID volumeName containers.
Proof.
  unfold stopTargets. simpl.
  by destruct (isAttached volumeName c && negb (isSelf selfID c)).
Qed.

Lemma stopLoop_spec cl selfID volumeName containers acc calls stopped err :
  stopLoop cl selfID volumeName containers acc = (calls, (stopped, err)) ->
  exists stoppedNow,
    stopped = acc ++ stoppedNow /\
    Forall (fun id => ContainerStop cl id = None) stoppedNow /\
    match err with
    | None => stopTargets selfID volumeName containers = stoppedNow /\
              calls = CallStop <$> stoppedNow
    | Some e =>
        exists id rest e',
          stopTargets selfID volumeName containers = stoppedNow ++ id :: rest /\
          ContainerStop cl id = Some e' /\
          e = Errorf ("failed to stop container " +:+ id) e' /\
          calls = CallStop <$> (stoppedNow ++ [id])
    end.
Proof.
  revert acc calls stopped err.
  induction containers as [|c containers IH]; intros acc calls stopped err; simpl.
  - intros [= <- <- <-]. exists []. by rewrite app_nil_r.
  - rewrite stopTargets_cons.
    destruct (isAttached volumeName c); simpl; [|apply IH].
    destruct (isSelf selfID c); simpl; [apply IH|].
    destruct (ContainerStop cl (ID c)) as [e'|] eqn:Es.
    + intros [= <- <- <-]. exists []. rewrite app_nil_r.
      split; [done|]. split; [done|]. by exists (ID c), (stopTargets selfID volumeName containers), e'.
    + destruct (stopLoop cl selfID volumeName containers (acc ++ [ID c]))
        as [calls' [stopped' err']] eqn:El.
      intros [= <- <- <-].
      destruct (IH _ _ _ _ El) as (now & -> & Hall & Herr).
      exists (ID c :: now). split; [by rewrite <- app_assoc|].
      split; [by constructor|].
      destruct err' as [e|].
      * destruct Herr as (id & rest & e' & -> & ? & -> & ->).
        by exists id, rest, e'.
      * destruct Herr as [-> ->]. done.
Qed.

Lemma isSelf_ID selfID c c' : ID c = ID c' -> isSelf selfID c = isSelf selfID c'.
Proof. unfold isSelf. by intros ->. Qed.

Lemma stopTargets_not_self selfID volumeName containers id c :
  id ∈ stopTargets selfID volumeName containers ->
  isSelf selfID c = true -> ID c <> id.
Proof.
  unfold stopTargets. intros Hin Hself Heq.
  apply list_elem_of_fmap in Hin as (c' & -> & Hc').
  apply list_elem_of_In, List.filter_In in Hc' as [_ Hf].
  apply andb_true_iff in Hf as [_ Hn].
  rewrite (isSelf_ID selfID c c' Heq) in Hself. by rewrite Hself in Hn.
Qed.

(** X9: [StopContainersAttachedToVolume] stops, in listing order, the
    containers attached to the volume other than the manager itself.  The
    ids it returns were all stopped; without an error they are all of the
    targets; with an error they are the targets before the one whose stop
    failed, the error names that container, and no later target is
    touched.  The manager never stops a container whose id is its hostname
    or shares its first twelve characters.  When the hostname or the
    listing fails, nothing is stopped. *)
Theorem StopContainers_spec (cl : DockerClient) (selfID volumeName : string)
    (containers : list Summary) (calls : list dockerCall)
    (stopped : list string) (err : option error) :
  ContainerList cl = inr containers ->
  StopContainersAttachedToVolume (inr selfID) cl volumeName = (calls, (stopped, err)) ->
  Forall (fun id => ContainerStop cl id = None) stopped /\
  (err = None ->
     stopped = stopTargets selfID volumeName containers /\
     calls = CallStop <$> stopped) /\
  (forall e, err = Some e ->
     exists id rest e',
       stopTargets selfID volumeName containers = stopped ++ id :: rest /\
       ContainerStop cl id = Some e' /\
       e = Errorf ("failed to stop container " +:+ id) e' /\
       calls = CallStop <$> (stopped ++ [id])) /\
  (forall c, isSelf selfID c = true -> ~ CallStop (ID c) ∈ calls) /\
  (forall hostErr listErr cl',
     StopContainersAttachedToVolume (inl hostErr) cl' volumeName =
       ([], ([], Some (Errorf "failed to get hostname (self container ID)" hostErr))) /\
     (ContainerList cl' = inl listErr ->
      StopContainersAttachedToVolume (inr selfID) cl' volumeName =
        ([], ([], Some (Errorf "failed to list containers" listErr))))).
Proof.
  intros Hlist H. unfold StopContainersAttachedToVolume in H. rewrite Hlist in H.
  destruct (stopLoop_spec _ _ _ _ _ _ _ _ H) as (now & -> & Hall & Herr). simpl.
  split; [done|]. split; [|split; [|split]].
  - intros ->. by destruct Herr as [-> ->].
  - intros e ->. exact Herr.
  - intros c Hself Hin.
    assert (Hid : ID c ∈ stopTargets selfID volumeName containers).
    { destruct err as [e|].
      - destruct Herr as (id & rest & e' & -> & _ & _ & ->).
        apply list_elem_of_fmap in Hin as (x & [= ->] & Hx).
        apply elem_of_app in Hx as [Hx|Hx]; apply elem_of_app; [by left|right].
        apply elem_of_cons in Hx as [->|Hx]; [by left|by apply elem_of_nil in Hx].
      - destruct Herr as [-> ->].
        by apply list_elem_of_fmap in Hin as (x & [= ->] & Hx). }
    by eapply stopTargets_not_self.
  - intros hostErr listErr cl'. split; [done|].
    intros Hl. unfold StopContainersAttachedToVolume. by rewrite Hl.
Qed.

Lemma StopContainers_spec_witness :
  StopContainersAttachedToVolume (inr "5555eeee6666") (scenarioDocker true) "db_data" =
    ([CallStop "1111aaaa2222bbbb"; CallStop "7777aaaa8888bbbb"],
     (["1111aaaa2222bbbb"; "7777aaaa8888bbbb"], None)) /\
  ~ CallStop "5555eeee6666ffff"
      ∈ [CallStop "1111aaaa2222bbbb"; CallStop "7777aaaa8888bbbb"].
Proof.
  split; [reflexivity|].
  apply (proj1 (proj2 (proj2 (proj2
          (StopContainers_spec (scenarioDocker true) "5555eeee6666" "db_data" _ _ _ _
             eq_refl eq_refl))))
         (container "5555eeee6666ffff" "/backup" "db_data")).
  reflexivity.
Defined.

Lemma StartContainers_calls cl ids : StartContainers cl ids = (CallStart <$> ids, None).
Proof. induction ids as [|id ids IH]; [done|]. simpl. by rewrite IH. Qed.

(** X10: a scheduled backup whose stop phase succeeds stops the targets,
    calls [Sync] from the volume to the S3 path once, and then starts every
    container it stopped, in the same order, whether or not [Sync] and the
    starts succeed.  When stopping a target fails, [Sync] is not called and
    no container is started: the targets stopped before the failure stay
    stopped.  Without a volume name the backup is the [Sync] alone. *)
Theorem scheduledBackup_events (hostname : error + string) (cl : DockerClient)
    (cfg : Config) (syncResult : option error) :
  (VolumeName cfg = "" ->
   scheduledBackup hostname cl cfg syncResult = [EvSync (VolumePath cfg) (S3Path cfg)]) /\
  (forall calls stopped,
     VolumeName cfg <> "" ->
     StopContainersAttachedToVolume hostname cl (VolumeName cfg)
       = (calls, (stopped, None)) ->
     scheduledBackup hostname cl cfg syncResult =
       (EvDocker <$> calls) ++ [EvSync (VolumePath cfg) (S3Path cfg)] ++
       (EvDocker <$> (CallStart <$> stopped))) /\
  (forall calls stopped e,
     VolumeName cfg <> "" ->
     StopContainersAttachedToVolume hostname cl (VolumeName cfg)
       = (calls, (stopped, Some e)) ->
     scheduledBackup hostname cl cfg syncResult = EvDocker <$> calls).
Proof.
  unfold scheduledBackup, stopContainers. split; [|split].
  - intros ->. done.
  - intros calls stopped Hne H.
    destruct (String.eqb_spec (VolumeName cfg) ""); [done|]. simpl.
    rewrite H. unfold restartContainers.
    destruct stopped as [|id stopped]; [done|].
    by rewrite StartContainers_calls.
  - intros calls stopped e Hne H.
    destruct (String.eqb_spec (VolumeName cfg) ""); [done|]. simpl.
    rewrite H. simpl. by rewrite app_nil_r.
Qed.

Lemma scheduledBackup_events_witness :
  scheduledBackup (inr "5555eeee6666") (scenarioDocker true) scenarioConfig
      (Some (ErrIO "upload failed")) =
    [EvDocker (CallStop "1111aaaa2222bbbb"); EvDocker (CallStop "7777aaaa8888bbbb");
     EvSync "/data" "s3://bucket/data";
     EvDocker (CallStart "1111aaaa2222bbbb"); EvDocker (CallStart "7777aaaa8888bbbb")] /\
  scheduledBackup (inr "5555eeee6666") (scenarioDocker false) scenarioConfig None =
    [EvDocker (CallStop "1111aaaa2222bbbb"); EvDocker (CallStop "7777aaaa8888bbbb")].
Proof.
  split.
  - apply (proj1 (proj2 (scheduledBackup_events (inr "5555eeee6666") (scenarioDocker true)
                           scenarioConfig (Some (ErrIO "upload failed"))))
             [CallStop "1111aaaa2222bbbb"; CallStop "7777aaaa8888bbbb"]
             ["1111aaaa2222bbbb"; "7777aaaa8888bbbb"]); [discriminate|reflexivity].
  - apply (proj2 (proj2 (scheduledBackup_events (inr "5555eeee6666") (scenarioDocker false)
                           scenarioConfig None))
             [CallStop "1111aaaa2222bbbb"; CallStop "7777aaaa8888bbbb"]
             ["1111aaaa2222bbbb"]
             (Errorf "failed to stop container 7777aaaa8888bbbb"
                (ErrIO "cannot stop container"))); [discriminate|reflexivity].
Defined.

(** ** More on the runs of [executeSync] *)

Lemma copyJobs_sublist c order : path <$> copyJobs c order `sublist_of` order.*1.
Proof.
  induction order as [|[p i] order IH]; [done|].
  rewrite copyJobs_cons. destruct (shouldCopy i (dstObjs c !! p)).
  - rewrite !fmap_cons. simpl. by apply sublist_skip.
  - rewrite fmap_cons. by apply sublist_cons.
Qed.

Lemma deleteJobs_sublist c order : path <$> deleteJobs c order `sublist_of` order.*1.
Proof.
  induction order as [|[p i] order IH]; [done|].
  rewrite deleteJobs_cons. destruct (shouldDelete (srcObjs c !! p)).
  - rewrite !fmap_cons. simpl. by apply sublist_skip.
  - rewrite fmap_cons. by apply sublist_cons.
Qed.

Lemma NoDup_submseteq {A} (l k : list A) : l ⊆+ k -> NoDup k -> NoDup l.
Proof.
  intros (m & Hsub & Hperm)%submseteq_sublist_l Hk.
  eapply sublist_NoDup; [|exact Hsub]. by rewrite Hperm.
Qed.

Lemma NoDup_copySet c : NoDup (copySet c).
Proof.
  eapply sublist_NoDup; [|apply copyJobs_sublist]. apply NoDup_fst_map_to_list.
Qed.

Lemma NoDup_deleteSet s c : NoDup (deleteSet s c).
Proof.
  unfold deleteSet. destruct (deleteDestination s); [|constructor].
  eapply sublist_NoDup; [|apply deleteJobs_sublist]. apply NoDup_fst_map_to_list.
Qed.

Lemma NoDup_plan s c : NoDup (plan s c).
Proof.
  apply (NoDup_fmap_1 path). rewrite plan_paths. apply NoDup_app.
  split; [apply NoDup_copySet|]. split; [|apply NoDup_deleteSet].
  intros p Hc Hd. apply elem_of_copySet in Hc as (i & Hi & _).
  apply elem_of_deleteSet in Hd as (_ & _ & Hn). congruence.
Qed.

(** X11: in every state of a run the jobs started are the first of the
    jobs submitted, in the order of submission, the others being still in
    the queue; the jobs submitted are jobs of the plan; and the plan holds
    no path twice, the copy set and the delete set being disjoint.  So no
    job is started twice and no job outside the plan is started. *)
Theorem jobs_start_once (s : Syncer) (c : executeCall) (st : state) :
  reachable s c st ->
  submitted st = started st ++ jobs st /\
  submitted st ⊆+ plan s c /\
  NoDup (path <$> plan s c) /\
  NoDup (started st) /\
  (forall j, j ∈ started st -> j ∈ plan s c).
Proof.
  intros Hr. pose proof (reachable_fifo _ _ _ Hr) as Hfifo.
  pose proof (reachable_submitted_plan _ _ _ Hr) as Hsub.
  assert (Hnd : NoDup (submitted st)).
  { eapply NoDup_submseteq; [exact Hsub|apply NoDup_plan]. }
  split; [done|]. split; [done|]. split.
  { rewrite plan_paths. apply NoDup_app.
    split; [apply NoDup_copySet|]. split; [|apply NoDup_deleteSet].
    intros p Hc Hd. apply elem_of_copySet in Hc as (i & Hi & _).
    apply elem_of_deleteSet in Hd as (_ & _ & Hn). congruence. }
  rewrite Hfifo in Hnd. apply NoDup_app in Hnd as (Hst & _ & _).
  split; [done|]. intros j Hj. eapply elem_of_submseteq; [|exact Hsub].
  rewrite Hfifo. apply elem_of_app. by left.
Qed.

Lemma jobs_start_once_witness :
  exists st, reachable (scenarioSyncer scenarioClient true 1) scenarioCall st /\
             started st = [copyJob scenarioCall "sub/b.txt"; copyJob scenarioCall "base/c.txt";
                           deleteJob scenarioCall "old.txt"] /\
             NoDup (started st).
Proof.
  destruct (endsIn_reachable (scenarioSyncer scenarioClient true 1) scenarioCall okSchedule
              (fun st => started st =
                 [copyJob scenarioCall "sub/b.txt"; copyJob scenarioCall "base/c.txt";
                  deleteJob scenarioCall "old.txt"])) as (st & Hr & Hst).
  { by vm_compute. }
  exists st. split; [done|]. split; [done|].
  apply (jobs_start_once (scenarioSyncer scenarioClient true 1) scenarioCall st Hr).
Defined.

Section Completion.
Variable s : Syncer.
Variable c : executeCall.

Lemma step_closed_waits st st' :
  step s c st st' ->
  (jobsClosed st = true -> prod st = PWait \/ exists r, prod st = PReturned r) ->
  (jobsClosed st' = true -> prod st' = PWait \/ exists r, prod st' = PReturned r).
Proof.
  destruct 1; case_cancel; case_offer; intros IH Hcl;
    first [ exact (IH Hcl) | by left | (right; by eexists)
          | (destruct (IH Hcl) as [?|[? ?]]; congruence) ].
Qed.

Lemma step_exited_drained st st' :
  step s c st st' ->
  (jobsClosed st = true -> prod st = PWait \/ exists r, prod st = PReturned r) ->
  (ctxErr st = None ->
   forall k, workers st !! k = Some WExited -> jobs st = [] /\ jobsClosed st = true) ->
  (ctxErr st' = None ->
   forall k, workers st' !! k = Some WExited -> jobs st' = [] /\ jobsClosed st' = true).
Proof.
  destruct 1 as [st err Hrun Hcaller Herr
                | st i Hw Hc | st i j q Hw Hj | st i Hw Hj Hcl | st i j Hw
                | st i j err Hw | st i Hw
                | st order Hp Ho | st Hp | st e rest Hp Hc
                | st p i rest Hp Hc | st j rest Hp Hl | st j rest Hp Hc
                | st Hp Hd | st order Hp Hd Ho | st Hp | st e rest Hp Hc
                | st p i rest Hp Hc | st j rest Hp Hl | st j rest Hp Hc
                | st Hp | st Hp Hw ];
    case_cancel; case_offer; intros I1 I2 Hnone k Hk; try congruence;
    try (destruct (decide (i = k)) as [->|Hne];
         [rewrite list_lookup_insert_eq in Hk by (by eapply lookup_lt_Some)
         |rewrite list_lookup_insert_ne in Hk by done]);
    try discriminate; try done;
    try (destruct (I2 Hnone k Hk) as [Hjobs Hclosed]; try done; try congruence;
         destruct (I1 Hclosed) as [?|[? ?]]; congruence).
Qed.

Lemma step_closeInv st st' : step s c st st' -> closeInv st -> closeInv st'.
Proof.
  unfold closeInv. intros Hs [I1 I2].
  split; [by eapply step_closed_waits|by eapply step_exited_drained].
Qed.

Lemma reachable_closeInv st : reachable s c st -> closeInv st.
Proof.
  revert st. apply reachable_ind.
  - unfold closeInv. simpl. split; [done|]. intros _ i Hi.
    apply lookup_replicate in Hi as [? _]. done.
  - eauto using step_closeInv.
Qed.

Lemma returned_no_failure st r :
  reachable s c st -> prod st = PReturned r -> ctxErr st = None -> failures st = [].
Proof.
  intros Hr Hp Hc. destruct (reachable_returned _ _ _ _ Hr Hp) as [_ Hall].
  pose proof (reachable_ctxInv _ _ _ Hr) as (_ & _ & I3).
  destruct (failures st) as [|e l] eqn:E; [done|]. exfalso.
  destruct I3 as [?|Hin]; [done|congruence|].
  apply list_elem_of_lookup in Hin as [k Hk].
  eapply Forall_lookup_1 in Hall; [|exact Hk]. discriminate.
Qed.
End Completion.

(** X12: when [executeSync] returns with its context never cancelled and
    the syncer has at least one worker, every job of the plan has been
    started, each once, no executor has failed, the queue is empty and the
    value returned is nil. *)
Theorem uncancelled_run_completes (s : Syncer) (c : executeCall) (st : state)
    (r : option error) :
  1 <= concurrency s ->
  reachable s c st -> prod st = PReturned r -> ctxErr st = None ->
  started st ≡ₚ plan s c /\ jobs st = [] /\ failures st = [] /\ r = None.
Proof.
  intros Hk Hr Hp Hc.
  destruct (reachable_returned _ _ _ _ Hr Hp) as [-> Hall].
  pose proof (returned_no_failure _ _ _ _ Hr Hp Hc) as Hf.
  pose proof (reachable_closeInv _ _ _ Hr) as [_ I2].
  assert (Hjobs : jobs st = []).
  { assert (Hlen : (0 < length (workers st))%nat).
    { rewrite (reachable_workers_length _ _ _ Hr). lia. }
    destruct (workers st) as [|w ws] eqn:Ew; [simpl in Hlen; lia|].
    apply Forall_cons in Hall as [<- _].
    by destruct (I2 Hc 0%nat) as [? _]. }
  pose proof (reachable_plan_exact _ _ _ Hr Hc) as Hplan.
  unfold planInv in Hplan. rewrite Hp in Hplan.
  pose proof (reachable_fifo _ _ _ Hr) as Hfifo.
  rewrite Hjobs, app_nil_r in Hfifo. rewrite <- Hfifo.
  split; [done|]. split; [done|]. split; [done|].
  unfold returnValue. rewrite Hc, (reachable_first_error _ _ _ Hr), Hf. done.
Qed.

Lemma uncancelled_run_completes_witness :
  exists st, reachable (scenarioSyncer scenarioClient true 1) scenarioCall st /\
             prod st = PReturned None /\
             started st ≡ₚ plan (scenarioSyncer scenarioClient true 1) scenarioCall.
Proof.
  destruct (endsIn_reachable (scenarioSyncer scenarioClient true 1) scenarioCall okSchedule
              (fun st => prod st = PReturned None /\ ctxErr st = None))
    as (st & Hr & Hp & Hc).
  { by vm_compute. }
  exists st. split; [done|]. split; [done|].
  apply (uncancelled_run_completes (scenarioSyncer scenarioClient true 1) scenarioCall
           st None); [simpl; lia|done..].
Defined.

Lemma filter_insert_count (f : worker -> bool) (l : list worker) (i : nat) (w0 w : worker) :
  l !! i = Some w0 ->
  (length (List.filter f (<[i := w]> l)) + (if f w0 then 1 else 0) =
   length (List.filter f l) + (if f w then 1 else 0))%nat.
Proof.
  revert i; induction l as [|x l IH]; intros i Hi; [done|].
  destruct i as [|i]; simpl in *.
  - injection Hi as ->. destruct (f w0), (f w); simpl; lia.
  - specialize (IH i Hi). destruct (f x); simpl; lia.
Qed.

Section Bounds.
Variable s : Syncer.
Variable c : executeCall.

Lemma step_jobs_bound st st' :
  step s c st st' -> (length (jobs st) <= jobsCap)%nat ->
  (length (jobs st') <= jobsCap)%nat.
Proof.
  destruct 1 as [ | | st i j q Hw Hj | | | | | | | | | | | | | | | | | | | ];
    case_cancel; case_offer; rewrite ?length_app; simpl; try lia.
  rewrite Hj. simpl. lia.
Qed.

Lemma step_failures_bound st st' :
  step s c st st' ->
  (length (failures st) <= length (List.filter isDone (workers st)))%nat ->
  (length (failures st') <= length (List.filter isDone (workers st')))%nat.
Proof.
  destruct 1 as [st err Hrun Hcaller Herr
                | st i Hw Hc | st i j q Hw Hj | st i Hw Hj Hcl | st i j Hw
                | st i j err Hw | st i Hw
                | | | | | | | | | | | | | | | ];
    case_cancel; case_offer; try done; intros IH;
    match goal with
    | |- context [<[?k := ?w]> (workers ?st0)] =>
        pose proof (filter_insert_count isDone (workers st0) k _ w Hw) as Hcount
    end; simpl in Hcount; rewrite ?length_app; simpl; lia.
Qed.

Lemma reachable_bounds st :
  reachable s c st ->
  (length (jobs st) <= jobsCap)%nat /\
  (length (failures st) <= length (List.filter isDone (workers st)))%nat.
Proof.
  revert st. apply reachable_ind.
  - simpl. split; [unfold jobsCap|]; lia.
  - intros st st' _ [I1 I2] Hs.
    split; [by eapply step_jobs_bound|by eapply step_failures_bound].
Qed.

Lemma step_waits_closed st st' :
  step s c st st' ->
  (prod st = PWait \/ (exists r, prod st = PReturned r) -> jobsClosed st = true) ->
  (prod st' = PWait \/ (exists r, prod st' = PReturned r) -> jobsClosed st' = true).
Proof.
  destruct 1 as [ | | | | | | | st order Hp Ho | st Hp | st e rest Hp Hc
                | st p i rest Hp Hc | st j rest Hp Hl | st j rest Hp Hc
                | st Hp Hd | st order Hp Hd Ho | st Hp | st e rest Hp Hc
                | st p i rest Hp Hc | st j rest Hp Hl | st j rest Hp Hc
                | st Hp | st Hp Hw ];
    case_cancel; case_offer; intros IH Hprod; try exact (IH Hprod);
    try (apply IH; by left); try done;
    try (destruct (shouldCopy _ _)); try (destruct (shouldDelete _));
    destruct Hprod as [?|[? ?]]; discriminate.
Qed.

Lemma reachable_waits_closed st :
  reachable s c st ->
  prod st = PWait \/ (exists r, prod st = PReturned r) -> jobsClosed st = true.
Proof.
  revert st.
  apply (reachable_ind s c (fun st =>
           prod st = PWait \/ (exists r, prod st = PReturned r) -> jobsClosed st = true)).
  - simpl. intros [?|[? ?]]; done.
  - intros st st' _ IH Hs. by eapply step_waits_closed.
Qed.

Lemma step_no_worker st st' :
  step s c st st' -> workers st = [] -> started st = [] -> started st' = [].
Proof.
  destruct 1 as [ | | st i j q Hw Hj | | | | | | | | | | | | | | | | | | | ];
    case_cancel; case_offer; try done.
  intros Hws. by rewrite Hws in Hw.
Qed.
End Bounds.

Lemma inFlight_exited (ws : list worker) :
  Forall (eq WExited) ws -> length (List.filter isExec ws) = 0%nat.
Proof. induction 1 as [|w ws <- _ IH]; [done|]. simpl. exact IH. Qed.

(** X13: the queue never holds more than 1000 jobs and the error channel
    never more than 2000 errors; a worker fails at most once, so the
    executors never return more errors than there are workers; and with at
    most 2000 workers every error returned is in the channel: the
    non-blocking send never drops one. *)
Theorem channel_bounds (s : Syncer) (c : executeCall) (st : state) :
  reachable s c st ->
  (length (jobs st) <= 1000)%nat /\
  (length (errChan st) <= 2000)%nat /\
  (length (failures st) <= Z.to_nat (concurrency s))%nat /\
  (concurrency s <= 2000 -> errChan st = failures st).
Proof.
  intros Hr. destruct (reachable_bounds _ _ _ Hr) as [Hj Hf].
  pose proof (reachable_errChan _ _ _ Hr) as He.
  assert (Hfk : (length (failures st) <= Z.to_nat (concurrency s))%nat).
  { rewrite <- (reachable_workers_length _ _ _ Hr).
    etrans; [exact Hf|]. apply List.filter_length_le. }
  split; [exact Hj|]. split; [|split; [exact Hfk|]].
  - rewrite He, length_take. unfold errChanCap. lia.
  - intros Hk. rewrite He. apply take_ge. unfold errChanCap. lia.
Qed.

Lemma channel_bounds_witness :
  exists st, reachable (scenarioSyncer scenarioClient false 2) scenarioCall st /\
             errChan st = [ErrIO "NoSuchKey"; ErrIO "disk full"] /\
             errChan st = failures st.
Proof.
  destruct (endsIn_reachable (scenarioSyncer scenarioClient false 2) scenarioCall
              failSchedule
              (fun st => errChan st = [ErrIO "NoSuchKey"; ErrIO "disk full"]))
    as (st & Hr & He).
  { by vm_compute. }
  exists st. split; [done|]. split; [done|].
  apply (channel_bounds (scenarioSyncer scenarioClient false 2) scenarioCall st Hr).
  simpl. lia.
Defined.

(** X14: a syncer built with a concurrency of zero or less has no worker:
    no job is ever started and no executor ever fails.  If [executeSync]
    returns, it returns nil unless the caller's deadline has passed, and
    when its context was never cancelled the whole plan, of at most 1000
    jobs, is left in the queue: [Sync] reports success without a single
    transfer. *)
Theorem no_worker_no_transfer (s : Syncer) (c : executeCall) (st : state) :
  concurrency s <= 0 ->
  reachable s c st ->
  workers st = [] /\ started st = [] /\ failures st = [] /\
  (forall r, prod st = PReturned r ->
     (callerErr st <> Some DeadlineExceeded -> r = None) /\
     (ctxErr st = None -> jobs st ≡ₚ plan s c /\ (length (plan s c) <= 1000)%nat)).
Proof.
  intros Hk Hr.
  assert (Hws : forall st, reachable s c st -> workers st = []).
  { intros st0 Hr0. apply length_zero_iff_nil.
    rewrite (reachable_workers_length _ _ _ Hr0). lia. }
  assert (Hst : started st = []).
  { revert st Hr. apply reachable_ind; [done|].
    intros st st' Hr IH Hs. eapply step_no_worker; eauto. }
  assert (Hf : failures st = []).
  { destruct (reachable_bounds _ _ _ Hr) as [_ Hf]. rewrite (Hws _ Hr) in Hf.
    simpl in Hf. apply length_zero_iff_nil. lia. }
  split; [by apply Hws|]. split; [done|]. split; [done|].
  intros r Hp. destruct (reachable_returned _ _ _ _ Hr Hp) as [-> _]. split.
  - intros Hc. pose proof (reachable_ctxInv _ _ _ Hr) as (_ & I2 & _).
    unfold returnValue. rewrite (reachable_first_error _ _ _ Hr), Hf. simpl.
    destruct (ctxErr st) as [e|] eqn:E; [|done].
    destruct (I2 _ eq_refl) as [->|[_ ?]]; [|congruence].
    by rewrite decide_True by done.
  - intros Hc. pose proof (reachable_plan_exact _ _ _ Hr Hc) as Hplan.
    unfold planInv in Hplan. rewrite Hp in Hplan.
    pose proof (reachable_fifo _ _ _ Hr) as Hfifo. rewrite Hst in Hfifo.
    simpl in Hfifo. rewrite Hfifo in Hplan. split; [done|].
    rewrite <- Hplan. destruct (reachable_bounds _ _ _ Hr) as [Hj _].
    unfold jobsCap in Hj. exact Hj.
Qed.

Lemma no_worker_no_transfer_witness :
  exists st, reachable (scenarioSyncer scenarioClient false 0) scenarioCall st /\
             prod st = PReturned None /\ started st = [] /\
             jobs st = [copyJob scenarioCall "sub/b.txt"; copyJob scenarioCall "base/c.txt"].
Proof.
  destruct (endsIn_reachable (scenarioSyncer scenarioClient false 0) scenarioCall
              noWorkerSchedule
              (fun st => prod st = PReturned None /\
                 jobs st = [copyJob scenarioCall "sub/b.txt";
                            copyJob scenarioCall "base/c.txt"]))
    as (st & Hr & Hp & Hj).
  { by vm_compute. }
  exists st. split; [done|]. split; [done|]. split; [|done].
  apply (no_worker_no_transfer (scenarioSyncer scenarioClient false 0) scenarioCall st);
    [simpl; lia|done].
Defined.

(** X15: the value [executeSync] returns is nil exactly when no executor
    returned an error and the context did not end with the caller's
    deadline; an error it returns is one an executor returned, or
    [DeadlineExceeded] from the caller's context.  It never reports a
    cancellation of its own making. *)
Theorem return_value (s : Syncer) (c : executeCall) (st : state) (r : option error) :
  reachable s c st -> prod st = PReturned r ->
  (r = None <-> failures st = [] /\ ctxErr st <> Some DeadlineExceeded) /\
  (forall e, r = Some e ->
     e ∈ failures st \/
     (e = DeadlineExceeded /\ callerErr st = Some DeadlineExceeded)).
Proof.
  intros Hr Hp. destruct (reachable_returned _ _ _ _ Hr Hp) as [-> _].
  pose proof (reachable_ctxInv _ _ _ Hr) as (_ & I2 & _).
  unfold returnValue. rewrite (reachable_first_error _ _ _ Hr).
  destruct (ctxErr st) as [e0|] eqn:E.
  - destruct (I2 _ eq_refl) as [->|[-> Hc]].
    + rewrite decide_True by done. split.
      * destruct (failures st); simpl; split; try done; intros [? _]; done.
      * intros e He. left. destruct (failures st); simpl in He; [done|].
        injection He as <-. by left.
    + rewrite decide_False by discriminate. split.
      * split; [done|]. intros [_ ?]. done.
      * intros e [= <-]. by right.
  - split.
    + destruct (failures st); simpl; split; try done; intros [? _]; done.
    + intros e He. left. destruct (failures st); simpl in He; [done|].
      injection He as <-. by left.
Qed.

Lemma return_value_witness :
  exists st, reachable (scenarioSyncer scenarioClient false 1) scenarioCall st /\
             prod st = PReturned (Some DeadlineExceeded) /\
             callerErr st = Some DeadlineExceeded.
Proof.
  destruct (endsIn_reachable (scenarioSyncer scenarioClient false 1) scenarioCall
              [ARange; ANext; ASend; ACallerDone DeadlineExceeded; ANext; ANext; ANext;
               AWorkerDone 0; ANext]
              (fun st => prod st = PReturned (Some DeadlineExceeded) /\
                         failures st = []))
    as (st & Hr & Hp & Hf).
  { by vm_compute. }
  exists st. split; [done|]. split; [done|].
  destruct (proj2 (return_value _ _ st _ Hr Hp) DeadlineExceeded eq_refl) as [Hin|[_ ?]];
    [|done].
  rewrite Hf in Hin. by apply elem_of_nil in Hin.
Defined.

(** X16: when [executeSync] has returned, every worker has returned, no
    executor invocation is in flight and the queue is closed; the jobs it
    still holds are the jobs submitted and never started. *)
Theorem returned_is_quiescent (s : Syncer) (c : executeCall) (st : state)
    (r : option error) :
  reachable s c st -> prod st = PReturned r ->
  Forall (eq WExited) (workers st) /\ inFlight st = 0%nat /\
  jobsClosed st = true /\ submitted st = started st ++ jobs st.
Proof.
  intros Hr Hp. destruct (reachable_returned _ _ _ _ Hr Hp) as [_ Hall].
  split; [done|]. split; [by apply inFlight_exited|].
  split; [|by apply (reachable_fifo s c)].
  apply (reachable_waits_closed s c st Hr). right. by eexists.
Qed.

Lemma returned_is_quiescent_witness :
  exists st, reachable (scenarioSyncer scenarioClient false 1) scenarioCall st /\
             prod st = PReturned None /\
             started st = [] /\ jobs st = [copyJob scenarioCall "sub/b.txt"] /\
             inFlight st = 0%nat.
Proof.
  destruct (endsIn_reachable (scenarioSyncer scenarioClient false 1) scenarioCall
              cancelQueuedSchedule
              (fun st => prod st = PReturned None /\ started st = [] /\
                         jobs st = [copyJob scenarioCall "sub/b.txt"]))
    as (st & Hr & Hp & Hs & Hj).
  { by vm_compute. }
  exists st. repeat split; try done.
  apply (returned_is_quiescent (scenarioSyncer scenarioClient false 1) scenarioCall
           st None Hr Hp).
Defined.
